(** * Aleph: boundary matrices, reduction strategies and persistence diagrams

    A shallow embedding of the boundary-matrix facade
    ([boundaryMatrices/BoundaryMatrix.hh]), of the persistence diagram
    class ([persistenceDiagrams/PersistenceDiagram.hh]) and of the bipartite
    adjacency matrix reader ([topology/io/BipartiteAdjacencyMatrix.hh]),
    together with models of the column store, the dualization and the two
    reduction strategies that the facade is used with. *)

From Stdlib Require Import Sorted DecimalNat DecimalString ZArith Ascii String.
From stdpp Require Import base list gmap strings.

Local Open Scope nat_scope.

(** [using I = unsigned]: indices are unsigned machine integers.  They are
    modelled as [nat]; every index the development computes is bounded by
    the number of columns, so no wrap-around is reached. *)
Abbreviation Index := nat (only parsing).

(** A column is the sequence of its row indices. *)
Abbreviation Column := (list nat) (only parsing).

(* ===================================================================== *)
(** * Part I: definitions *)
(* ===================================================================== *)

(** ** The column store *)

Module Vector.

(** Modelled from the spec: the column store [representations::Vector]
    ([Vector.hh]) is not among the sources.  Section 4.1 of the
    specification gives its contract: columns are index sets kept sorted
    ascending without duplicates, the pivot is the maximum index, and
    [addColumns] is the sorted-merge symmetric difference. *)
Abbreviation t := (list (list nat)) (only parsing).

(** Modelled from the spec: the linear-time merge of two sorted sequences
    that keeps the indices occurring in exactly one of them
    ([std::set_symmetric_difference]). *)
Fixpoint set_symmetric_difference (a b : Column) {struct a} : Column :=
  match a with
  | [] => b
  | x :: a' =>
      (fix inner (b : Column) : Column :=
         match b with
         | [] => x :: a'
         | y :: b' =>
             if x <? y then x :: set_symmetric_difference a' b
             else if y <? x then y :: inner b'
             else set_symmetric_difference a' b'
         end) b
  end.

(** Modelled from the spec: "store normalizes to sorted order"; insertion
    of one index at its place in a sorted column. *)
Fixpoint insert_sorted (x : Index) (c : Column) : Column :=
  match c with
  | [] => [x]
  | y :: c' => if x <=? y then x :: y :: c' else y :: insert_sorted x c'
  end.

(** Modelled from the spec: the sorted order a column is normalized to. *)
Definition normalize (c : list Index) : Column := foldr insert_sorted [] c.

(** Modelled from the spec: [setNumColumns(n)] (re)initializes the storage
    for exactly n empty columns. *)
Definition setNumColumns (n : Index) (_ : t) : t := replicate n [].

(** Modelled from the spec: the number of columns of the store. *)
Definition getNumColumns (v : t) : Index := length v.

(** Modelled from the spec: [getColumn(j)], the indices of column j in
    ascending order. *)
Definition getColumn (v : t) (j : Index) : Column := v !!! j.

(** Modelled from the spec: [setColumn(j, indices)] replaces the contents of
    column j; the caller guarantees uniqueness, the store sorts. *)
Definition setColumn (j : Index) (indices : list Index) (v : t) : t :=
  <[j := normalize indices]> v.

(** Modelled from the spec: the pivot of a column is its maximum index, or
    "none" if the column is empty; absence is an ordinary return value. *)
Definition maximumIndex (c : Column) : Index * bool :=
  match c with
  | [] => (0, false)
  | _ :: _ => (max_list c, true)
  end.

(** Modelled from the spec: [getMaximumIndex(j) -> (index, present)]. *)
Definition getMaximumIndex (v : t) (j : Index) : Index * bool :=
  maximumIndex (getColumn v j).

(** Modelled from the spec: column[target] := column[target] (+) column[source]. *)
Definition addColumns (source target : Index) (v : t) : t :=
  <[target := set_symmetric_difference (getColumn v target) (getColumn v source)]> v.

(** Modelled from the spec: [clearColumn(j)] empties column j. *)
Definition clearColumn (j : Index) (v : t) : t := <[j := []]> v.

(** Modelled from the spec: [getDimension(j)] = |column j| - 1, on the
    unsigned index type (an empty column, a vertex, has dimension 0). *)
Definition columnDimension (c : Column) : Index := length c - 1.

(** Modelled from the spec: [getDimension(j)], the dimension of the simplex
    of column j. *)
Definition getDimension (v : t) (j : Index) : Index :=
  columnDimension (getColumn v j).

(** Modelled from the spec: [getDimension()] is the maximum over all columns. *)
Definition getDimensionMax (v : t) : Index := max_list (columnDimension <$> v).

End Vector.

(** ** The boundary matrix facade ([BoundaryMatrix.hh]) *)

(** [template <class Representation>]: the interface the facade requires of
    its column store. *)
Class Representation (R : Type) := {
  rep_setNumColumns : Index → R → R;
  rep_getNumColumns : R → Index;
  rep_getMaximumIndex : R → Index → Index * bool;
  rep_addColumns : Index → Index → R → R;
  rep_setColumn : Index → list Index → R → R;
  rep_getColumn : R → Index → list Index;
  rep_clearColumn : Index → R → R;
  rep_getDimension : R → Index → Index;
  rep_getDimensionMax : R → Index
}.

#[export] Instance Vector_Representation : Representation Vector.t := {
  rep_setNumColumns := Vector.setNumColumns;
  rep_getNumColumns := Vector.getNumColumns;
  rep_getMaximumIndex := Vector.getMaximumIndex;
  rep_addColumns := Vector.addColumns;
  rep_setColumn := Vector.setColumn;
  rep_getColumn := Vector.getColumn;
  rep_clearColumn := Vector.clearColumn;
  rep_getDimension := Vector.getDimension;
  rep_getDimensionMax := Vector.getDimensionMax
}.

Record BoundaryMatrix (R : Type) := mkBoundaryMatrix {
  _representation : R;
  _isDualized : bool
}.
Arguments mkBoundaryMatrix {R} _ _.
Arguments _representation {R} _.
Arguments _isDualized {R} _.

Section Facade.
Context {R : Type} `{Representation R}.

Definition setNumColumns (numColumns : Index) (M : BoundaryMatrix R) : BoundaryMatrix R :=
  mkBoundaryMatrix (rep_setNumColumns numColumns (_representation M)) (_isDualized M).

Definition getNumColumns (M : BoundaryMatrix R) : Index :=
  rep_getNumColumns (_representation M).

Definition getMaximumIndex (M : BoundaryMatrix R) (column : Index) : Index * bool :=
  rep_getMaximumIndex (_representation M) column.

Definition addColumns (source target : Index) (M : BoundaryMatrix R) : BoundaryMatrix R :=
  mkBoundaryMatrix (rep_addColumns source target (_representation M)) (_isDualized M).

Definition setColumn (column : Index) (indices : list Index) (M : BoundaryMatrix R)
  : BoundaryMatrix R :=
  mkBoundaryMatrix (rep_setColumn column indices (_representation M)) (_isDualized M).

Definition getColumn (M : BoundaryMatrix R) (column : Index) : list Index :=
  rep_getColumn (_representation M) column.

Definition clearColumn (column : Index) (M : BoundaryMatrix R) : BoundaryMatrix R :=
  mkBoundaryMatrix (rep_clearColumn column (_representation M)) (_isDualized M).

Definition getDimension (M : BoundaryMatrix R) (column : Index) : Index :=
  rep_getDimension (_representation M) column.

Definition getDimensionMax (M : BoundaryMatrix R) : Index :=
  rep_getDimensionMax (_representation M).

Definition setDualized (value : bool) (M : BoundaryMatrix R) : BoundaryMatrix R :=
  mkBoundaryMatrix (_representation M) value.

Definition isDualized (M : BoundaryMatrix R) : bool := _isDualized M.

End Facade.

(** The matrices of the test program: [using BM = BoundaryMatrix<Vector<unsigned>>]. *)
Definition BM := BoundaryMatrix Vector.t.

(** ** Dualization *)

Section Dualization.
Context {R : Type} `{Representation R}.

(** Modelled from the spec: the dualization ([Dualization.hh]) is not among
    the sources.  Section 4.4: for an N-column matrix, entry r in column c
    of the input becomes entry N-1-c in column N-1-r of the output.  Here
    the entries of one column c are sent to their places. *)
Definition scatterColumn (n c : Index) (column : list Index)
    (dualMatrix : list (list Index)) : list (list Index) :=
  foldl (λ dual r, alter (λ col, col ++ [n - 1 - c]) (n - 1 - r) dual)
        dualMatrix column.

(** Modelled from the spec: the columns of the anti-transpose, the columns
    of the input scattered in increasing order. *)
Definition dualColumns (M : BoundaryMatrix R) : list (list Index) :=
  let n := getNumColumns M in
  foldl (λ dual c, scatterColumn n c (getColumn M c) dual)
        (replicate n []) (seq 0 n).

(** Modelled from the spec: [dualizeTrivial] of the test program: a matrix
    with the same number of columns that stores the anti-transposed columns
    through [setColumn]; dualizing toggles the dualized flag (it is set for
    a matrix that was not dualized, and dualizing an already dualized
    matrix toggles it back). *)
Definition dualizeTrivial (M : BoundaryMatrix R) : BoundaryMatrix R :=
  let n := getNumColumns M in
  let dualMatrix := dualColumns M in
  let N := foldl (λ N j, setColumn j (dualMatrix !!! j) N)
                 (setNumColumns n M) (seq 0 n) in
  setDualized (negb (isDualized M)) N.

End Dualization.

(** ** The reduction strategies *)

(** A raw persistence pair: (birth index, death index). *)
Definition PersistencePairs := list (Index * Index).

Section Reduction.
Context {R : Type} `{Representation R}.

(** Modelled from the spec: the state threaded through a reduction: the
    matrix being reduced in place, the map from a pivot index to the column
    that owns it, the columns flagged as already resolved (twist only), and
    the pairs emitted so far. *)
Record ReductionState := mkState {
  matrix : BoundaryMatrix R;
  lut : gmap Index Index;
  resolved : gset Index;
  pairs : PersistencePairs
}.

(** Sequential loop over a list of indices whose body may fail. *)
Fixpoint for_each {S : Type} (body : S → Index → option S)
    (indices : list Index) (st : S) : option S :=
  match indices with
  | [] => Some st
  | j :: indices' =>
      match body st j with
      | Some st' => for_each body indices' st'
      | None => None
      end
  end.

(** Modelled from the spec: step 1 of the standard reduction (section
    4.3): while pivot(j) is present and already owned by a column k,
    perform [addColumns(k, j)] and recompute the pivot.  The loop is
    bounded by [fuel]; [None] means the bound was reached. *)
Fixpoint reduceColumn (fuel : nat) (owner : gmap Index Index) (j : Index)
    (M : BoundaryMatrix R) : option (BoundaryMatrix R) :=
  match fuel with
  | 0 => None
  | S fuel' =>
      let '(i, valid) := getMaximumIndex M j in
      if valid then
        match owner !! i with
        | Some k => reduceColumn fuel' owner j (addColumns k j M)
        | None => Some M
        end
      else Some M
  end.

(** Modelled from the spec: step 2 of the standard reduction: if a pivot p
    remains it is unowned; register p -> j and emit the pair (p, j). *)
Definition standardColumn (st : ReductionState) (j : Index) : option ReductionState :=
  match reduceColumn (S (getNumColumns (matrix st))) (lut st) j (matrix st) with
  | Some M =>
      let '(i, valid) := getMaximumIndex M j in
      if valid then
        Some (mkState M (<[i := j]> (lut st)) (resolved st) (pairs st ++ [(i, j)]))
      else Some (mkState M (lut st) (resolved st) (pairs st))
  | None => None
  end.

(** Modelled from the spec: [StandardReduction] ([Standard.hh]) is not
    among the sources.  Columns are processed in increasing order. *)
Definition StandardReduction (M : BoundaryMatrix R)
    : option (BoundaryMatrix R * PersistencePairs) :=
  match for_each standardColumn (seq 0 (getNumColumns M)) (mkState M ∅ ∅ []) with
  | Some st => Some (matrix st, pairs st)
  | None => None
  end.

(** Modelled from the spec: one column of the twist reduction: a column of
    the current dimension band that is not flagged as resolved is reduced
    as in the standard algorithm; the moment a pair (p, j) is emitted,
    column p is cleared and flagged. *)
Definition twistColumn (dims : list Index) (d : Index)
    (st : ReductionState) (j : Index) : option ReductionState :=
  if decide (dims !!! j = d ∧ j ∉ resolved st) then
    match reduceColumn (S (getNumColumns (matrix st))) (lut st) j (matrix st) with
    | Some M =>
        let '(i, valid) := getMaximumIndex M j in
        if valid then
          Some (mkState (clearColumn i M) (<[i := j]> (lut st))
                        ({[i]} ∪ resolved st) (pairs st ++ [(i, j)]))
        else Some (mkState M (lut st) (resolved st) (pairs st))
    | None => None
    end
  else Some st.

(** Modelled from the spec: [TwistReduction] ([Twist.hh]) is not among
    the sources.  Processing order is by decreasing simplex dimension,
    highest dimension first; the simplex dimensions are those of the
    columns of the matrix handed to the reduction. *)
Definition TwistReduction (M : BoundaryMatrix R)
    : option (BoundaryMatrix R * PersistencePairs) :=
  let n := getNumColumns M in
  let dims := getDimension M <$> seq 0 n in
  let bands := reverse (seq 0 (S (getDimensionMax M))) in
  match for_each (λ st d, for_each (twistColumn dims d) (seq 0 n) st)
                 bands (mkState M ∅ ∅ []) with
  | Some st => Some (matrix st, pairs st)
  | None => None
  end.

End Reduction.

Arguments ReductionState R : clear implicits.

(** ** Text output ([operator<<] of [BoundaryMatrix.hh]) *)

(** The line feed ["\n"]. *)
Definition newline : string := String "010"%char EmptyString.

(** [o << c] for an unsigned index: its decimal digits. *)
Definition show_index (c : Index) : string :=
  NilEmpty.string_of_uint (Nat.to_uint c).

Section Output.
Context {R : Type} `{Representation R}.

(** [for( auto&& c : column ) o << c << " ";] *)
Definition print_indices (o : string) (column : list Index) : string :=
  foldl (λ o c, (o ++ show_index c ++ " ")%string) o column.

(** The body of the loop over the columns. *)
Definition print_column (M : BoundaryMatrix R) (o : string) (j : Index) : string :=
  let column := getColumn M j in
  let o := match column with
           | _ :: _ => print_indices o column
           | [] => (o ++ "-")%string
           end in
  (o ++ newline)%string.

(** [operator<<( std::ostream& o, const BoundaryMatrix& M )]; the stream is
    the text written to it so far. *)
Definition operator_shl (o : string) (M : BoundaryMatrix R) : string :=
  foldl (print_column M) o (seq 0 (getNumColumns M)).

(** The format as the specification words it: the indices of a column
    separated by spaces, or a single [-] for an empty column, each line
    terminated by a newline. *)
Definition spec_line (column : list Index) : string :=
  match column with
  | [] => "-"
  | _ :: _ => String.concat " " (show_index <$> column)
  end ++ newline.

Definition spec_serialization (M : BoundaryMatrix R) : string :=
  String.concat "" (spec_line <$> (getColumn M <$> seq 0 (getNumColumns M))).

End Output.

(** ** Persistence diagrams ([PersistenceDiagram.hh]) *)

(** The operations the class template uses of its [DataType], and the
    [std::numeric_limits] traits of that type. *)
Class DataType (T : Type) := {
  dt_eqb : T → T → bool;
  dt_ltb : T → T → bool;
  dt_sub : T → T → T;
  dt_has_infinity : bool;
  dt_infinity : T;
  dt_max : T
}.

(** The value of the signed integral type with [digits] value bits
    ([std::numeric_limits<T>::digits]) that has the bits of [z] in two's
    complement. *)
Definition wrap_signed (digits : nat) (z : Z) : Z :=
  ((z + 2 ^ Z.of_nat digits) mod 2 ^ (Z.of_nat digits + 1) - 2 ^ Z.of_nat digits)%Z.

(** A signed integral data type with [digits] value bits.  Its values are
    the integers from [- 2 ^ digits] to [2 ^ digits - 1]; a difference
    outside of this range is a signed overflow, for which the wrap-around of
    the machine is taken. *)
Definition signed_DataType (digits : nat) : DataType Z := {|
  dt_eqb := Z.eqb;
  dt_ltb := Z.ltb;
  dt_sub := λ a b, wrap_signed digits (a - b);
  dt_has_infinity := false;
  dt_infinity := 0%Z;
  dt_max := (2 ^ Z.of_nat digits - 1)%Z
|}.

(** [long], with 63 value bits. *)
#[export] Instance Z_DataType : DataType Z := signed_DataType 63.

Section PersistenceDiagram.
Context {T : Type} `{DataType T}.

Record Point := mkPoint { _x : T; _y : T }.

(** [explicit Point( DataType x )] *)
Definition Point_unpaired (x : T) : Point :=
  let y := dt_max in
  let y := if dt_has_infinity then dt_infinity else y in
  mkPoint x y.

Definition x (p : Point) : T := _x p.
Definition y (p : Point) : T := _y p.

Definition persistence (p : Point) : T := dt_sub (_y p) (_x p).

Definition Point_eq (p other : Point) : bool :=
  dt_eqb (_x p) (_x other) && dt_eqb (_y p) (_y other).

Definition Point_ne (p other : Point) : bool := negb (Point_eq p other).

Definition Point_lt (p other : Point) : bool :=
  if dt_eqb (_x p) (_x other) then dt_ltb (_y p) (_y other)
  else dt_ltb (_x p) (_x other).

Definition isUnpaired (p : Point) : bool :=
  (dt_has_infinity && dt_eqb (_y p) dt_infinity)
  || (negb dt_has_infinity && dt_eqb (_y p) dt_max).

Record PersistenceDiagram := mkDiagram {
  _dimension : nat;
  _points : list Point
}.

(** A default-constructed diagram. *)
Definition emptyDiagram : PersistenceDiagram := mkDiagram 0 [].

Definition add1 (x : T) (D : PersistenceDiagram) : PersistenceDiagram :=
  mkDiagram (_dimension D) (_points D ++ [Point_unpaired x]).

Definition add (x y : T) (D : PersistenceDiagram) : PersistenceDiagram :=
  mkDiagram (_dimension D) (_points D ++ [mkPoint x y]).

(** [std::remove_if]: one pass that moves every element for which the
    predicate fails to the next free slot at the front; the result is the
    vector and the new logical end. *)
Definition remove_if_step (pred : Point → bool)
    (st : list Point * nat) (i : nat) : list Point * nat :=
  let '(v, result) := st in
  match v !! i with
  | Some p => if pred p then (v, result) else (<[result := p]> v, S result)
  | None => (v, result)
  end.

Definition remove_if (pred : Point → bool) (v : list Point) : list Point * nat :=
  foldl (remove_if_step pred) (v, 0) (seq 0 (length v)).

(** The erase-remove idiom: [v.erase( std::remove_if( ... ), v.end() )]. *)
Definition erase_remove_if (pred : Point → bool) (v : list Point) : list Point :=
  let '(v', new_end) := remove_if pred v in take new_end v'.

Definition removeDiagonal (D : PersistenceDiagram) : PersistenceDiagram :=
  mkDiagram (_dimension D)
            (erase_remove_if (λ p, dt_eqb (x p) (y p)) (_points D)).

Definition removeUnpaired (D : PersistenceDiagram) : PersistenceDiagram :=
  mkDiagram (_dimension D) (erase_remove_if isUnpaired (_points D)).

(** [_points.insert( _points.end(), other.begin(), other.end() )] *)
Definition merge (D other : PersistenceDiagram) : PersistenceDiagram :=
  mkDiagram (_dimension D) (_points D ++ _points other).

Definition setDimension (dimension : nat) (D : PersistenceDiagram) : PersistenceDiagram :=
  mkDiagram dimension (_points D).

Definition dimension (D : PersistenceDiagram) : nat := _dimension D.

(** [std::count_if] *)
Definition count_if (pred : Point → bool) (v : list Point) : nat :=
  foldl (λ count p, if pred p then S count else count) 0 v.

Definition betti (D : PersistenceDiagram) : nat := count_if isUnpaired (_points D).

Definition size (D : PersistenceDiagram) : nat := length (_points D).

Definition empty (D : PersistenceDiagram) : bool :=
  match _points D with [] => true | _ :: _ => false end.

(** Diagrams live in objects; [merge] is a member function called on one
    object with a reference to another.  The store maps an object to its
    current value. *)
Definition merge_at (d e : nat) (σ : gmap nat PersistenceDiagram)
    : option (gmap nat PersistenceDiagram) :=
  match σ !! d, σ !! e with
  | Some D, Some E => Some (<[d := merge D E]> σ)
  | _, _ => None
  end.

End PersistenceDiagram.

Arguments Point T : clear implicits.
Arguments PersistenceDiagram T : clear implicits.

(** ** The bipartite adjacency matrix reader ([BipartiteAdjacencyMatrix.hh]) *)

(** [Simplex::DataType] and [Simplex::VertexType] are template parameters.
    The reader applies [std::abs] and [std::min] to the weights and reads
    them with [operator>>]: [DataType] is one of the signed integral types
    [int], [long] and [long long], in two's complement with [data_digits]
    value bits ([std::numeric_limits<DataType>::digits], 31 for [int]), and
    [VertexType] an unsigned integral type of [vertex_digits] bits.
    Floating point weights are not modelled. *)
Class SimplexTypes := {
  data_digits : nat;
  vertex_digits : nat
}.

(** [Simplex<int, unsigned>] *)
#[export] Instance int_unsigned : SimplexTypes := {
  data_digits := 31;
  vertex_digits := 32
}.

(** A simplex with its vertices and its weight. *)
Record Simplex := mkSimplex { vertices : list nat; data : Z }.

Record BipartiteAdjacencyMatrixReader := mkReader {
  _height : nat;
  _width : nat;
  _assignMinimumAbsoluteVertexWeight : bool;
  _assignMinimumVertexWeight : bool
}.

(** How a call of the reader ends: it returns, or it throws a
    [std::runtime_error]; either way with the reader and the simplicial
    complex [K] as they are at that point. *)
Inductive Outcome :=
  | Returned (reader : BipartiteAdjacencyMatrixReader) (K : list Simplex)
  | Thrown (what : string) (reader : BipartiteAdjacencyMatrixReader) (K : list Simplex).

Definition is_newline (c : ascii) : bool := Ascii.eqb c "010"%char.

(** [std::isspace] in the classic locale. *)
Definition is_space (c : ascii) : bool :=
  let k := nat_of_ascii c in (k =? 32) || ((9 <=? k) && (k <=? 13)).

Definition digit_of (c : ascii) : option nat :=
  let k := nat_of_ascii c in
  if (48 <=? k) && (k <=? 57) then Some (k - 48) else None.

(** [while( std::getline( in, line ) ) ++height;]: a line is counted when
    it is ended by a newline, or when it holds characters and the stream
    ends. *)
Fixpoint count_lines (input : string) (pending : bool) : nat :=
  match input with
  | EmptyString => if pending then 1 else 0
  | String c rest =>
      if is_newline c then S (count_lines rest false) else count_lines rest true
  end.

(** The extraction [in >> c] of unsigned numbers of any size from a text
    in which no sign is followed by a digit, as [operator<<] writes it:
    whitespace-separated digit sequences are extracted until an extraction
    fails. *)
Fixpoint read_values (input : string) (current : option nat) : list nat :=
  match input with
  | EmptyString => match current with Some v => [v] | None => [] end
  | String c rest =>
      match digit_of c with
      | Some k => read_values rest (Some (10 * default 0 current + k))
      | None =>
          if is_space c then
            match current with
            | Some v => v :: read_values rest None
            | None => read_values rest None
            end
          else match current with Some v => [v] | None => [] end
      end
  end.

Section Reader.
Context `{SimplexTypes}.

(** The construction of a [SimplicialComplex] from the simplices and its
    [sort] with the [filtrations::Data] order are not among the sources; the
    reader is parametric in them. *)
Variable sort : list Simplex → list Simplex.

(** [std::numeric_limits<DataType>::lowest()] and [max()]. *)
Definition lowest : Z := (- 2 ^ Z.of_nat data_digits)%Z.
Definition highest : Z := (2 ^ Z.of_nat data_digits - 1)%Z.

Definition representable (v : Z) : bool := ((lowest <=? v) && (v <=? highest))%Z.

(** The value of type [DataType] with the bits of [z]. *)
Definition wrap (z : Z) : Z := wrap_signed data_digits z.

(** [std::abs( w )]; negating the lowest value overflows, and the
    wrap-around of the machine gives that value again. *)
Definition std_abs (w : Z) : Z := if (w <? 0)%Z then wrap (- w) else w.

(** [static_cast<VertexType>( n )] of a [std::size_t]. *)
Definition VertexType (n : nat) : nat :=
  Z.to_nat (Z.of_nat n mod 2 ^ Z.of_nat vertex_digits).

(** The extraction [in >> value] of one [DataType] skips white space and
    then takes an optional sign and the digits that follow it; [Field] is
    how far it has come. *)
Inductive Field :=
  | Idle
  | Sign (negative : bool)
  | Digits (negative : bool) (magnitude : Z).

Definition sign_of (c : ascii) : option bool :=
  if Ascii.eqb c "+" then Some false
  else if Ascii.eqb c "-" then Some true
  else None.

(** The value of a field of digits; a value that [DataType] cannot
    represent makes the extraction fail. *)
Definition field_value (negative : bool) (magnitude : Z) : option Z :=
  let v := if negative then (- magnitude)%Z else magnitude in
  if representable v then Some v else None.

(** [std::copy( std::istream_iterator<DataType>( in ),
    std::istream_iterator<DataType>(), std::back_inserter( values ) )]:
    values are extracted until an extraction fails: at the end of the
    input, at a character that cannot start a number, at a sign without a
    digit, or at a value out of range.  A character that ends a field is not
    part of it and is looked at again by the next extraction. *)
Fixpoint extract_values (input : string) (field : Field) : list Z :=
  match input with
  | EmptyString =>
      match field with
      | Digits negative magnitude =>
          match field_value negative magnitude with
          | Some v => [v]
          | None => []
          end
      | _ => []
      end
  | String c rest =>
      match field, digit_of c with
      | Idle, Some k => extract_values rest (Digits false (Z.of_nat k))
      | Sign negative, Some k => extract_values rest (Digits negative (Z.of_nat k))
      | Digits negative magnitude, Some k =>
          extract_values rest (Digits negative (10 * magnitude + Z.of_nat k))
      | Idle, None =>
          if is_space c then extract_values rest Idle
          else match sign_of c with
               | Some negative => extract_values rest (Sign negative)
               | None => []
               end
      | Sign _, None => []
      | Digits negative magnitude, None =>
          match field_value negative magnitude with
          | Some v =>
              v :: (if is_space c then extract_values rest Idle
                    else match sign_of c with
                         | Some negative' => extract_values rest (Sign negative')
                         | None => []
                         end)
          | None => []
          end
      end
  end.

Definition updateOrSetWeight (reader : BipartiteAdjacencyMatrixReader)
    (v : nat) (w : Z) (minWeight : gmap nat Z) : gmap nat Z :=
  match minWeight !! v with
  | None => <[v := w]> minWeight
  | Some m =>
      if _assignMinimumAbsoluteVertexWeight reader then
        if (std_abs w <? std_abs m)%Z then <[v := w]> minWeight else minWeight
      else <[v := (m `min` w)%Z]> minWeight
  end.

(** The loops over the entries of the matrix: one edge per entry. *)
Definition edges_step (reader : BipartiteAdjacencyMatrixReader) (values : list Z)
    (st : gmap nat Z * list Simplex) (yx : nat * nat) : gmap nat Z * list Simplex :=
  let '(minWeight, simplices) := st in
  let '(y, x) := yx in
  let i := VertexType (_width reader * y + x) in
  let w := values !!! i in
  let u := VertexType y in
  let v := VertexType (x + _height reader) in
  (updateOrSetWeight reader v w (updateOrSetWeight reader u w minWeight),
   simplices ++ [mkSimplex [u; v] w]).

Definition matrix_positions (reader : BipartiteAdjacencyMatrixReader) : list (nat * nat) :=
  y ← seq 0 (_height reader); x ← seq 0 (_width reader); [(y, x)].

(** [minWeight[ VertexType(i) ]] of a vertex without an entry in the map
    is the value-initialized weight. *)
Definition vertex_step (reader : BipartiteAdjacencyMatrixReader)
    (minWeight : gmap nat Z) (minData : Z)
    (simplices : list Simplex) (i : nat) : list Simplex :=
  simplices ++
  [mkSimplex [VertexType i]
     (if _assignMinimumVertexWeight reader || _assignMinimumAbsoluteVertexWeight reader
      then default 0%Z (minWeight !! VertexType i) else minData)].

(** [operator()( std::istream& in, SimplicialComplex& K )] *)
Definition read (input : string) (reader : BipartiteAdjacencyMatrixReader)
    (K : list Simplex) : Outcome :=
  let height := count_lines input false in
  let values := extract_values input Idle in
  match values with
  | [] => Returned reader K
  | first :: others =>
      let reader := mkReader height (length values / height)
                      (_assignMinimumAbsoluteVertexWeight reader)
                      (_assignMinimumVertexWeight reader) in
      if negb (length values mod height =? 0) then
        Thrown "Format error: number of columns must not vary" reader K
      else
        let minData := foldl Z.min first others in
        let '(minWeight, simplices) :=
          foldl (edges_step reader values) (∅, []) (matrix_positions reader) in
        let simplices :=
          foldl (vertex_step reader minWeight minData) simplices
                (seq 0 (_height reader + _width reader)) in
        Returned reader (sort simplices)
  end.

End Reader.

(** ** Notions used to state and to prove the properties *)

(** Strictly ascending: sorted, without duplicates. *)
Definition ascending (c : Column) : Prop := StronglySorted lt c.

(** The GF(2) combination of the columns of [D] selected by [s]. *)
Definition combine (D : list Column) (s : Column) : Column :=
  foldr (λ k acc, Vector.set_symmetric_difference (D !!! k) acc) [] s.

(** A valid boundary matrix: the columns are sorted without duplicates, every
    entry of column j refers to an earlier column (a face precedes the
    simplices it bounds), the boundary of a boundary is zero, and the faces
    of a simplex have the dimension of the simplex less one. *)
Record valid_boundary_matrix (M : BM) : Prop := {
  valid_ascending : Forall ascending (_representation M);
  valid_triangular : ∀ j x, x ∈ getColumn M j → x < j;
  valid_boundary : ∀ j, combine (_representation M) (getColumn M j) = [];
  valid_graded : ∀ j x, x ∈ getColumn M j → getDimension M x + 1 = getDimension M j
}.

(** The data-model invariant of a stored matrix: every column is sorted
    ascending without duplicates, and its entries are row indices of the
    matrix. *)
Definition well_formed (M : BM) : Prop :=
  Forall ascending (_representation M) ∧
  ∀ j x, x ∈ getColumn M j → x < getNumColumns M.

(** [i] is the maximum index of column [c]. *)
Definition is_pivot (i : Index) (c : Column) : Prop :=
  i ∈ c ∧ ∀ x, x ∈ c → x ≤ i.

(** Distinct columns do not share a pivot. *)
Definition reduced (n : nat) (R : list Column) : Prop :=
  ∀ j k i, j < n → k < n → is_pivot i (R !!! j) → is_pivot i (R !!! k) → j = k.

(** Column [c] differs from column [j] of [D] by a combination of earlier
    columns of [D]. *)
Definition in_span (D : list Column) (j : Index) (c : Column) : Prop :=
  ∃ s, ascending s ∧ Forall (λ k, k < j) s ∧
       c = Vector.set_symmetric_difference (D !!! j) (combine D s).

Definition spanned (n : nat) (D R : list Column) : Prop :=
  ∀ j, j < n → in_span D j (R !!! j).

(** The columns of the matrix of a reduction state. *)
Definition cols (st : ReductionState Vector.t) : list (list nat) :=
  _representation (matrix st).

(** The invariant of both reductions of a matrix with columns [D]; [P]
    holds of the columns that have been processed. *)
Record Inv (D : list (list nat)) (P : nat → Prop) (st : ReductionState Vector.t)
    : Prop := {
  inv_length : length (cols st) = length D;
  inv_ascending : Forall ascending (cols st);
  inv_triangular : ∀ j x, x ∈ cols st !!! j → x < j;
  inv_graded : ∀ j x, x ∈ cols st !!! j →
      Vector.columnDimension (D !!! x) + 1 = Vector.columnDimension (D !!! j);
  inv_span : spanned (length D) D (cols st);
  inv_lut : ∀ i k, lut st !! i = Some k →
      P k ∧ k < length D ∧ is_pivot i (cols st !!! k);
  inv_owner : ∀ i k, P k → k < length D → is_pivot i (cols st !!! k) →
      lut st !! i = Some k;
  inv_pairs : ∀ i k, (i, k) ∈ pairs st ↔
      (P k ∧ k < length D ∧ is_pivot i (cols st !!! k));
  inv_resolved : ∀ p, p ∈ resolved st → cols st !!! p = []
}.

(** The columns processed by the twist reduction before it reaches
    column [j] of the band of dimension [d]. *)
Definition processed (D : list (list nat)) (d j k : nat) : Prop :=
  k < length D ∧
  (d < Vector.columnDimension (D !!! k) ∨
   (Vector.columnDimension (D !!! k) = d ∧ k < j)).

(** The scatter loop of the dualization after its first [m] columns. *)
Definition scattered (D : list (list nat)) (m : nat) : list (list nat) :=
  foldl (λ dual c, scatterColumn (length D) c (D !!! c) dual)
        (replicate (length D) []) (seq 0 m).

(** No character of the text ends a line. *)
Fixpoint single_line (s : string) : bool :=
  match s with
  | EmptyString => true
  | String c rest => negb (is_newline c) && single_line rest
  end.

(** The text written for one index, and for one column: every index is
    followed by one space; an empty column is a single [-]. *)
Definition output_index (c : Index) : string := (show_index c ++ " ")%string.

Definition output_line (column : list Index) : string :=
  (match column with
   | [] => "-"
   | _ :: _ => String.concat "" (output_index <$> column)
   end ++ newline)%string.

(** The message of the exception the reader throws. *)
Definition format_error : string := "Format error: number of columns must not vary".

Section DiagramNotions.
Context {T : Type} `{DataType T}.

(** The death value that marks an unpaired point. *)
Definition sentinel : T := if dt_has_infinity then dt_infinity else dt_max.

(** A diagram populated by calls [add( x, y )]. *)
Definition populate (l : list (T * T)) : PersistenceDiagram T :=
  foldl (λ D xy, add xy.1 xy.2 D) emptyDiagram l.

End DiagramNotions.


(** ** Example data *)

(** The boundary matrix of the filled triangle of the test program:
    [{0}, {1}, {2}, {0,1}, {0,2}, {1,2}, {0,1,2}]. *)
Definition triangle : BM :=
  mkBoundaryMatrix [[]; []; []; [0; 1]; [0; 2]; [1; 2]; [3; 4; 5]] false.

Definition two_columns : BM := mkBoundaryMatrix [[]; [0]] false.

(** Upper triangular, but the boundary of column 3 is not zero. *)
Definition no_complex : BM := mkBoundaryMatrix [[]; []; [0]; [1; 2]] false.

Definition reader0 : BipartiteAdjacencyMatrixReader := mkReader 0 0 false false.


(** ** Further operations of the persistence diagram *)

Section DiagramOperations.
Context {T : Type} `{DataType T}.

(** [std::set<Point>] under [Point::operator<], as the sequence of its
    elements in order: a point is placed before the first element it is
    less than; a point equivalent to an element of the set is not inserted. *)
Fixpoint set_insert (p : Point T) (s : list (Point T)) : list (Point T) :=
  match s with
  | [] => [p]
  | q :: s' =>
      if Point_lt p q then p :: q :: s'
      else if Point_lt q p then q :: set_insert p s'
      else q :: s'
  end.

(** [std::set<Point> points( _points.begin(), _points.end() )] *)
Definition set_of_range (v : list (Point T)) : list (Point T) :=
  foldl (λ s p, set_insert p s) [] v.

(** [_points.assign( points.begin(), points.end() )] *)
Definition removeDuplicates (D : PersistenceDiagram T) : PersistenceDiagram T :=
  mkDiagram (_dimension D) (set_of_range (_points D)).

(** [operator==] of [std::vector<Point>]: equal sizes, and the elements
    equal under [Point::operator==] position by position. *)
Fixpoint vector_eq (v w : list (Point T)) : bool :=
  match v, w with
  | [], [] => true
  | p :: v', q :: w' => Point_eq p q && vector_eq v' w'
  | _, _ => false
  end.

(** [PersistenceDiagram::operator==] and [operator!=]. *)
Definition PersistenceDiagram_eq (D other : PersistenceDiagram T) : bool :=
  vector_eq (_points D) (_points other).

Definition PersistenceDiagram_ne (D other : PersistenceDiagram T) : bool :=
  negb (PersistenceDiagram_eq D other).

(** [insert( position, first, last )]; an iterator is the number of points
    before it. *)
Definition insert_range (position : nat) (range : list (Point T))
    (D : PersistenceDiagram T) : PersistenceDiagram T :=
  mkDiagram (_dimension D)
            (take position (_points D) ++ range ++ drop position (_points D)).

(** [erase( position )]: the diagram and the iterator that follows the
    erased point. *)
Definition erase (position : nat) (D : PersistenceDiagram T)
    : PersistenceDiagram T * nat :=
  (mkDiagram (_dimension D) (delete position (_points D)), position).

(** [erase( begin, end )] *)
Definition erase_range (first last : nat) (D : PersistenceDiagram T)
    : PersistenceDiagram T * nat :=
  (mkDiagram (_dimension D) (take first (_points D) ++ drop last (_points D)), first).

End DiagramOperations.

(** A data type whose [==] is equality and whose [<] is a strict total
    order, as the integral types and the floating point numbers other than
    NaN are. *)
Class LawfulDataType (T : Type) `{DataType T} : Prop := {
  dt_eqb_eq : ∀ a b : T, dt_eqb a b = true ↔ a = b;
  dt_ltb_irrefl : ∀ a : T, dt_ltb a a = false;
  dt_ltb_trans : ∀ a b c : T, dt_ltb a b = true → dt_ltb b c = true → dt_ltb a c = true;
  dt_ltb_total : ∀ a b : T, dt_ltb a b = false → dt_ltb b a = false → a = b
}.

#[export] Instance Z_LawfulDataType : LawfulDataType Z.
Proof.
  split; simpl.
  - intros a b. apply Z.eqb_eq.
  - intros a. apply Z.ltb_irrefl.
  - intros a b c. rewrite !Z.ltb_lt. lia.
  - intros a b. rewrite !Z.ltb_ge. lia.
Qed.

(** Sorted under [Point::operator<]. *)
Definition point_sorted {T : Type} `{DataType T} (s : list (Point T)) : Prop :=
  StronglySorted (λ p q, Point_lt p q = true) s.

(** ** Further notions of the reader *)


Section ReaderNotions.
Context `{SimplexTypes}.

(** The reader after it has set [_height] and [_width] for an input. *)
Definition reader_for (input : string) (reader : BipartiteAdjacencyMatrixReader)
    : BipartiteAdjacencyMatrixReader :=
  mkReader (count_lines input false)
           (length (extract_values input Idle) / count_lines input false)
           (_assignMinimumAbsoluteVertexWeight reader)
           (_assignMinimumVertexWeight reader).

(** [VertexType] holds [n] without wrap-around. *)
Definition fits_VertexType (n : nat) : Prop :=
  (Z.of_nat n < 2 ^ Z.of_nat vertex_digits)%Z.


(** The vertex weights the reader assigns come from the map of minimum
    weights when one of the two flags is set, and are the minimum of all
    values otherwise. *)
Definition vertex_weight (reader : BipartiteAdjacencyMatrixReader)
    (minWeight : gmap nat Z) (minData : Z) (i : nat) : Z :=
  if _assignMinimumVertexWeight reader || _assignMinimumAbsoluteVertexWeight reader
  then default 0%Z (minWeight !! VertexType i) else minData.

(** The value of the entry in row [y] and column [x], the edge the reader
    creates for it, and the update of the minimum weights of its two
    vertices. *)
Definition entry_weight (reader : BipartiteAdjacencyMatrixReader) (values : list Z)
    (yx : nat * nat) : Z :=
  values !!! VertexType (_width reader * yx.1 + yx.2).

Definition edge_of (reader : BipartiteAdjacencyMatrixReader) (values : list Z)
    (yx : nat * nat) : Simplex :=
  mkSimplex [VertexType yx.1; VertexType (yx.2 + _height reader)]
            (entry_weight reader values yx).

Definition edge_weights (reader : BipartiteAdjacencyMatrixReader) (values : list Z)
    (minWeight : gmap nat Z) (yx : nat * nat) : gmap nat Z :=
  updateOrSetWeight reader (VertexType (yx.2 + _height reader))
    (entry_weight reader values yx)
    (updateOrSetWeight reader (VertexType yx.1) (entry_weight reader values yx) minWeight).

End ReaderNotions.

(** ** Text output of a persistence diagram *)

(** The horizontal tab ["\t"]. *)
Definition tab : string := String "009"%char EmptyString.

Section DiagramOutput.
Context {T : Type} `{DataType T}.

(** The stream insertion [o << v] of the data type. *)
Variable show : T → string.

(** [o << p.x() << "\t" << p.y() << "\n";] *)
Definition print_point (o : string) (p : Point T) : string :=
  ((((o ++ show (x p)) ++ tab) ++ show (y p)) ++ newline)%string.

(** [operator<<( std::ostream& o, const PersistenceDiagram<DataType>& D )] *)
Definition operator_shl_diagram (o : string) (D : PersistenceDiagram T) : string :=
  foldl print_point o (_points D).

End DiagramOutput.

(** ** Further example data *)

(** A diagram of dimension one with a duplicate, a diagonal and an unpaired
    point. *)
Definition diagram0 : PersistenceDiagram Z :=
  mkDiagram 1 [mkPoint 1%Z 3%Z; mkPoint 2%Z 2%Z; Point_unpaired 0%Z; mkPoint 1%Z 3%Z].

(** A matrix of two rows and three columns. *)
Definition weights_2x3 : string := ("3 1 2" ++ newline ++ "5 4 6" ++ newline)%string.


(** A matrix without an empty column. *)
Definition dense_columns : BM := mkBoundaryMatrix [[0; 1]; [1]; [0; 2]] false.

(** A matrix with a negative weight, and rows of different lengths with a
    negative weight. *)
Definition signed_rows : string := ("1 -2" ++ newline ++ "3 4" ++ newline)%string.

Definition signed_ragged_rows : string :=
  ("-1 2 3" ++ newline ++ "4 5" ++ newline)%string.

(** One row whose weights differ in sign. *)
Definition mixed_signs : string := ("-3 1" ++ newline)%string.

(* ===================================================================== *)
(** * Part II: properties *)
(* ===================================================================== *)

(** ** Sorted columns as vectors over GF(2) *)

Section ColumnAlgebra.
Import Vector.

Lemma ascending_nil : ascending [].
Proof. constructor. Qed.

Lemma ascending_cons x c : ascending (x :: c) ↔ Forall (lt x) c ∧ ascending c.
Proof.
  split.
  - intros Hs. apply StronglySorted_inv in Hs. tauto.
  - intros [Hf Hs]. by constructor.
Qed.

Lemma ascending_head_notin x c : ascending (x :: c) → x ∉ c.
Proof.
  rewrite ascending_cons. intros [Hf _] Hin.
  rewrite Forall_forall in Hf. specialize (Hf _ Hin). lia.
Qed.

Lemma symdiff_nil_r a : set_symmetric_difference a [] = a.
Proof. by destruct a. Qed.

Lemma symdiff_cons x a y b :
  set_symmetric_difference (x :: a) (y :: b) =
    if x <? y then x :: set_symmetric_difference a (y :: b)
    else if y <? x then y :: set_symmetric_difference (x :: a) b
    else set_symmetric_difference a b.
Proof. reflexivity. Qed.

Lemma symdiff_lower z a b :
  Forall (lt z) a → Forall (lt z) b → Forall (lt z) (set_symmetric_difference a b).
Proof.
  revert b. induction a as [|x a IHa]; intros b Ha Hb; [done|].
  induction b as [|y b IHb]; [done|].
  rewrite symdiff_cons.
  apply Forall_cons in Ha as [Hx Ha]. apply Forall_cons in Hb as [Hy Hb].
  destruct (x <? y); [|destruct (y <? x)].
  - constructor; [done|]. apply IHa; by try constructor.
  - constructor; [done|]. apply IHb. done.
  - by apply IHa.
Qed.

Lemma symdiff_ascending a b :
  ascending a → ascending b → ascending (set_symmetric_difference a b).
Proof.
  revert b. induction a as [|x a IHa]; intros b Ha Hb; [done|].
  induction b as [|y b IHb]; [done|].
  rewrite symdiff_cons.
  pose proof Ha as Ha'. pose proof Hb as Hb'.
  apply ascending_cons in Ha' as [Hxa Hsa]. apply ascending_cons in Hb' as [Hyb Hsb].
  destruct (x <? y) eqn:Hxy; [|destruct (y <? x) eqn:Hyx].
  - apply Nat.ltb_lt in Hxy. apply ascending_cons. split; [|by apply IHa].
    apply symdiff_lower; [done|]. constructor; [done|].
    eapply Forall_impl; [exact Hyb|]. intros; simpl in *; lia.
  - apply Nat.ltb_lt in Hyx. apply ascending_cons. split; [|by apply IHb].
    apply symdiff_lower; [|done]. constructor; [done|].
    eapply Forall_impl; [exact Hxa|]. intros; simpl in *; lia.
  - by apply IHa.
Qed.

Lemma elem_of_symdiff x a b :
  ascending a → ascending b →
  x ∈ set_symmetric_difference a b ↔ ((x ∈ a ∧ x ∉ b) ∨ (x ∈ b ∧ x ∉ a)).
Proof.
  revert b. induction a as [|u a IHa]; intros b Ha Hb.
  { simpl. rewrite elem_of_nil. tauto. }
  induction b as [|v b IHb].
  { rewrite symdiff_nil_r, elem_of_nil. tauto. }
  rewrite symdiff_cons.
  pose proof (ascending_head_notin _ _ Ha) as Hua.
  pose proof (ascending_head_notin _ _ Hb) as Hvb.
  pose proof Ha as Ha'. pose proof Hb as Hb'.
  apply ascending_cons in Ha' as [Hxa Hsa]. apply ascending_cons in Hb' as [Hyb Hsb].
  rewrite Forall_forall in Hxa. rewrite Forall_forall in Hyb.
  destruct (u <? v) eqn:Huv; [|destruct (v <? u) eqn:Hvu].
  - apply Nat.ltb_lt in Huv.
    rewrite elem_of_cons. rewrite (IHa (v :: b)) by done. rewrite !elem_of_cons.
    assert (u ∉ b) as Hub by (intros Hin; specialize (Hyb _ Hin); lia).
    destruct (decide (x = u)) as [->|Hne]; [|tauto].
    split; [intros _|tauto]. left. split; [by left|]. intros [->|?]; [lia|done].
  - apply Nat.ltb_lt in Hvu.
    rewrite elem_of_cons. rewrite IHb by done. rewrite !elem_of_cons.
    assert (v ∉ a) as Hva by (intros Hin; specialize (Hxa _ Hin); lia).
    destruct (decide (x = v)) as [->|Hne]; [|tauto].
    split; [intros _|tauto]. right. split; [by left|]. intros [->|?]; [lia|done].
  - apply Nat.ltb_ge in Huv. apply Nat.ltb_ge in Hvu.
    assert (u = v) as -> by lia.
    rewrite (IHa b) by done. rewrite !elem_of_cons.
    destruct (decide (x = v)) as [->|Hne]; tauto.
Qed.

Lemma ascending_ext a b :
  ascending a → ascending b → (∀ x, x ∈ a ↔ x ∈ b) → a = b.
Proof.
  revert b. induction a as [|u a IHa]; intros b Ha Hb Hext.
  { destruct b as [|v b]; [done|]. specialize (Hext v).
    rewrite elem_of_nil, elem_of_cons in Hext. exfalso. tauto. }
  destruct b as [|v b].
  { specialize (Hext u). rewrite elem_of_nil, elem_of_cons in Hext. exfalso. tauto. }
  pose proof (ascending_head_notin _ _ Ha) as Hua.
  pose proof (ascending_head_notin _ _ Hb) as Hvb.
  apply ascending_cons in Ha as [Hxa Hsa]. apply ascending_cons in Hb as [Hyb Hsb].
  rewrite Forall_forall in Hxa. rewrite Forall_forall in Hyb.
  assert (u = v) as ->.
  { pose proof (Hext u) as Hu. pose proof (Hext v) as Hv.
    rewrite !elem_of_cons in Hu. rewrite !elem_of_cons in Hv.
    destruct (decide (u = v)) as [|Hne]; [done|].
    assert (u ∈ b) as Hub by tauto. assert (v ∈ a) as Hva.
    { destruct Hv as [_ Hv]. destruct Hv as [?|?]; [by left|congruence|done]. }
    specialize (Hxa _ Hva). specialize (Hyb _ Hub). lia. }
  f_equal. apply IHa; [done..|]. intros x. specialize (Hext x).
  rewrite !elem_of_cons in Hext.
  destruct (decide (x = v)) as [->|Hne]; tauto.
Qed.

Lemma symdiff_nil_l b : set_symmetric_difference [] b = b.
Proof. reflexivity. Qed.

Lemma ascending_lookup_total (D : list Column) k :
  Forall ascending D → ascending (D !!! k).
Proof.
  intros HD. destruct (D !! k) as [c|] eqn:Hk.
  - rewrite (list_lookup_total_correct _ _ _ Hk).
    by eapply Forall_lookup_1.
  - rewrite list_lookup_total_alt, Hk. apply ascending_nil.
Qed.

Lemma ascending_singleton k : ascending [k].
Proof. apply ascending_cons. split; constructor. Qed.

End ColumnAlgebra.

Create HintDb asc.
#[export] Hint Resolve ascending_nil ascending_singleton symdiff_ascending
  ascending_lookup_total : asc.

(** Equations between symmetric differences of ascending columns are decided
    pointwise. *)
Ltac split_membership :=
  repeat match goal with
    | |- context [?y ∈ ?l] =>
        lazymatch goal with
        | _ : y ∈ l |- _ => fail
        | _ : y ∉ l |- _ => fail
        | _ => destruct (decide (y ∈ l))
        end
    end.

Ltac gf2_pointwise :=
  let x := fresh "x" in
  intros x; rewrite ?elem_of_symdiff by eauto 10 with asc;
  rewrite ?elem_of_nil; split_membership; tauto.

Ltac gf2 :=
  first [ reflexivity
        | apply ascending_ext; [eauto 10 with asc .. | gf2_pointwise] ].

Section Combination.
Import Vector.

Lemma symdiff_comm a b :
  ascending a → ascending b →
  set_symmetric_difference a b = set_symmetric_difference b a.
Proof. intros. gf2. Qed.

Lemma symdiff_assoc a b c :
  ascending a → ascending b → ascending c →
  set_symmetric_difference (set_symmetric_difference a b) c =
  set_symmetric_difference a (set_symmetric_difference b c).
Proof. intros. gf2. Qed.

Lemma symdiff_diag a : ascending a → set_symmetric_difference a a = [].
Proof.
  intros. apply ascending_ext; [eauto with asc..|].
  intros x. rewrite elem_of_symdiff, elem_of_nil by done. tauto.
Qed.

Lemma combine_cons D k s :
  combine D (k :: s) = set_symmetric_difference (D !!! k) (combine D s).
Proof. reflexivity. Qed.

Lemma combine_ascending D s : Forall ascending D → ascending (combine D s).
Proof.
  intros HD. induction s as [|k s IH]; [apply ascending_nil|].
  rewrite combine_cons. eauto with asc.
Qed.
Hint Resolve combine_ascending : asc.

Lemma combine_singleton D k : Forall ascending D → combine D [k] = D !!! k.
Proof. intros. unfold combine. simpl. apply symdiff_nil_r. Qed.

Lemma combine_symdiff D s t :
  Forall ascending D → ascending s → ascending t →
  combine D (set_symmetric_difference s t) =
  set_symmetric_difference (combine D s) (combine D t).
Proof.
  intros HD. revert t. induction s as [|u s IHs]; intros t Hs Ht.
  { simpl. gf2. }
  induction t as [|v t IHt].
  { rewrite symdiff_nil_r. simpl (combine D []). by rewrite symdiff_nil_r. }
  rewrite symdiff_cons.
  pose proof Hs as Hs'. pose proof Ht as Ht'.
  apply ascending_cons in Hs' as [_ Hs']. apply ascending_cons in Ht' as [_ Ht'].
  destruct (u <? v) eqn:Huv; [|destruct (v <? u) eqn:Hvu].
  - rewrite combine_cons, IHs by done. rewrite !combine_cons. gf2.
  - rewrite combine_cons, IHt by done. rewrite !combine_cons. gf2.
  - apply Nat.ltb_ge in Huv. apply Nat.ltb_ge in Hvu.
    assert (u = v) as -> by lia.
    rewrite IHs by done. rewrite !combine_cons. gf2.
Qed.

End Combination.
#[export] Hint Resolve combine_ascending : asc.


(** ** Pivots *)

Section Pivot.
Import Vector.

Lemma maximumIndex_true c i : maximumIndex c = (i, true) ↔ is_pivot i c.
Proof.
  unfold maximumIndex, is_pivot. destruct c as [|y c].
  { split; [done|]. intros [Hin _]. by apply elem_of_nil in Hin. }
  remember (y :: c) as l eqn:Hl.
  assert (l ≠ []) as Hne by by subst.
  clear Hl. split.
  - intros Heq. assert (i = max_list l) as -> by congruence. split.
    + by apply max_list_elem_of.
    + intros x. apply max_list_elem_of_le.
  - intros [Hin Hmax]. f_equal.
    apply max_list_elem_of in Hne.
    apply Hmax in Hne. apply max_list_elem_of_le in Hin. lia.
Qed.

Lemma maximumIndex_false c i : maximumIndex c = (i, false) ↔ c = [] ∧ i = 0.
Proof.
  unfold maximumIndex. destruct c; [|split; [done|by intros [? _]]].
  split; [by intros [= <-]|by intros [_ ->]].
Qed.

Lemma is_pivot_unique i i' c : is_pivot i c → is_pivot i' c → i = i'.
Proof.
  intros [Hi Hmi] [Hi' Hmi']. apply Hmi in Hi'. apply Hmi' in Hi. lia.
Qed.

Lemma is_pivot_nonempty i c : is_pivot i c → c ≠ [].
Proof. intros [Hin _] ->. by apply elem_of_nil in Hin. Qed.

Lemma nonempty_is_pivot c : c ≠ [] → ∃ i, is_pivot i c.
Proof.
  intros Hc. exists (maximumIndex c).1. apply maximumIndex_true.
  destruct c; [done|reflexivity].
Qed.

Lemma is_pivot_symdiff_lt i i' a b :
  ascending a → ascending b → is_pivot i a → is_pivot i' b → i' < i →
  is_pivot i (set_symmetric_difference a b).
Proof.
  intros Ha Hb [Hi Hmi] [Hi' Hmi'] Hlt. split.
  - rewrite elem_of_symdiff by done. left. split; [done|].
    intros Hib. apply Hmi' in Hib. lia.
  - intros x. rewrite elem_of_symdiff by done.
    intros [[Hx _]|[Hx _]]; [by apply Hmi|]. apply Hmi' in Hx. lia.
Qed.

Lemma is_pivot_symdiff_gt i i' a b :
  ascending a → ascending b → is_pivot i a → is_pivot i' b → i < i' →
  is_pivot i' (set_symmetric_difference a b).
Proof.
  intros Ha Hb Hpa Hpb Hlt. rewrite symdiff_comm by done.
  by eapply is_pivot_symdiff_lt.
Qed.

Lemma is_pivot_symdiff_eq i a b x :
  ascending a → ascending b → is_pivot i a → is_pivot i b →
  x ∈ set_symmetric_difference a b → x < i.
Proof.
  intros Ha Hb [Hi Hmi] [Hi' Hmi']. rewrite elem_of_symdiff by done.
  intros [[Hx Hnx]|[Hx Hnx]].
  - apply Hmi in Hx as Hle. destruct (decide (x = i)) as [->|]; [done|lia].
  - apply Hmi' in Hx as Hle. destruct (decide (x = i)) as [->|]; [done|lia].
Qed.

End Pivot.

(** ** The pivots of a reduced matrix are unique *)

Section Uniqueness.
Import Vector.
Variable n : nat.

Lemma symdiff_Forall (P : Index → Prop) a b :
  Forall P a → Forall P b → Forall P (set_symmetric_difference a b).
Proof.
  revert b. induction a as [|x a IHa]; intros b Ha Hb; [done|].
  induction b as [|y b IHb]; [done|].
  rewrite symdiff_cons.
  apply Forall_cons in Ha as [Hx Ha]. apply Forall_cons in Hb as [Hy Hb].
  destruct (x <? y); [|destruct (y <? x)].
  - constructor; [done|]. apply IHa; by try constructor.
  - constructor; [done|]. apply IHb. done.
  - by apply IHa.
Qed.

Lemma combine_reduced R t :
  Forall ascending R → reduced n R → ascending t → Forall (λ k, k < n) t →
  (combine R t = [] ∧ ∀ k, k ∈ t → R !!! k = []) ∨
  (∃ i k, is_pivot i (combine R t) ∧ k ∈ t ∧ is_pivot i (R !!! k) ∧
          ∀ k' i', k' ∈ t → is_pivot i' (R !!! k') → i' ≤ i).
Proof.
  intros HR Hred. induction t as [|k0 t IH]; intros Ht Hlt.
  { left. split; [done|]. intros k Hk. by apply elem_of_nil in Hk. }
  pose proof (ascending_head_notin _ _ Ht) as Hk0.
  apply ascending_cons in Ht as [_ Ht]. apply Forall_cons in Hlt as [Hk0n Hlt].
  specialize (IH Ht Hlt). rewrite combine_cons.
  destruct (decide (R !!! k0 = [])) as [He|Hne].
  { rewrite He, symdiff_nil_l. destruct IH as [[Hv Hall]|(i & k & Hi & Hk & Hik & Hmax)].
    - left. split; [done|]. intros k [->|Hk]%elem_of_cons; auto.
    - right. exists i, k. split_and!; [done|by right|done|].
      intros k' i' [->|Hk']%elem_of_cons Hp; [|eauto].
      rewrite He in Hp. by apply is_pivot_nonempty in Hp. }
  apply nonempty_is_pivot in Hne as [i0 Hi0].
  destruct IH as [[Hv Hall]|(i & k & Hi & Hk & Hik & Hmax)].
  - right. exists i0, k0. rewrite Hv, symdiff_nil_r.
    split_and!; [done|by left|done|].
    intros k' i' [->|Hk']%elem_of_cons Hp.
    + by rewrite (is_pivot_unique _ _ _ Hp Hi0).
    + rewrite (Hall _ Hk') in Hp. by apply is_pivot_nonempty in Hp.
  - assert (k < n) as Hkn by (rewrite Forall_forall in Hlt; auto).
    assert (i0 ≠ i) as Hneq.
    { intros ->. assert (k0 = k) as -> by eauto. done. }
    right. destruct (decide (i0 < i)).
    + exists i, k. split_and!; [|by right|done|].
      * eapply is_pivot_symdiff_gt; eauto with asc.
      * intros k' i' [->|Hk']%elem_of_cons Hp; [|eauto].
        rewrite (is_pivot_unique _ _ _ Hp Hi0). lia.
    + exists i0, k0. split_and!; [|by left|done|].
      * eapply is_pivot_symdiff_lt; eauto with asc. lia.
      * intros k' i' [->|Hk']%elem_of_cons Hp.
        -- by rewrite (is_pivot_unique _ _ _ Hp Hi0).
        -- specialize (Hmax _ _ Hk' Hp). lia.
Qed.

Lemma change_of_basis D R :
  Forall ascending D → Forall ascending R → spanned n D R →
  ∀ j, j ≤ n → ∀ s, ascending s → Forall (λ k, k < j) s →
  ∃ t, ascending t ∧ Forall (λ k, k < j) t ∧ combine D s = combine R t.
Proof.
  intros HD HR Hsp. induction j as [|j IH]; intros Hj s Hs Hlt.
  { exists []. destruct s as [|x s]; [done|].
    apply Forall_cons in Hlt as [? _]. lia. }
  destruct (decide (j ∈ s)) as [Hin|Hnin].
  - set (s' := set_symmetric_difference s [j]).
    assert (ascending s') as Hs' by (subst s'; eauto with asc).
    assert (Forall (λ k, k < j) s') as Hlt'.
    { rewrite Forall_forall in Hlt. apply Forall_forall. intros x.
      subst s'. rewrite elem_of_symdiff, list_elem_of_singleton by eauto with asc.
      intros [[Hx Hne]|[-> Hne]]; [|done]. apply Hlt in Hx. lia. }
    destruct (Hsp j) as (sj & Hsj & Hltj & Hj'); [lia|].
    destruct (IH ltac:(lia) (set_symmetric_difference s' sj)) as (t & Ht & Hltt & Heq).
    { eauto with asc. }
    { by apply symdiff_Forall. }
    exists (set_symmetric_difference t [j]). split_and!.
    + eauto with asc.
    + apply symdiff_Forall; [|by repeat constructor].
      eapply Forall_impl; [done|]. intros; simpl in *; lia.
    + rewrite (combine_symdiff R), (combine_singleton R), <-Heq by eauto with asc.
      rewrite Hj', combine_symdiff by eauto with asc.
      assert (s = set_symmetric_difference s' [j]) as Hss.
      { subst s'. gf2. }
      rewrite Hss at 1. rewrite combine_symdiff, combine_singleton by eauto with asc.
      gf2.
  - destruct (IH ltac:(lia) s Hs) as (t & Ht & Hltt & Heq).
    + rewrite Forall_forall in Hlt. apply Forall_forall. intros x Hx.
      specialize (Hlt _ Hx). simpl in Hlt. assert (x ≠ j) by by intros ->. lia.
    + exists t. split_and!; [done| |done].
      eapply Forall_impl; [done|]. intros; simpl in *; lia.
Qed.

Lemma pivot_transfer D R R' :
  Forall ascending D → Forall ascending R → Forall ascending R' →
  spanned n D R → spanned n D R' → reduced n R → reduced n R' →
  ∀ j, j < n → ∀ i, is_pivot i (R !!! j) → is_pivot i (R' !!! j).
Proof.
  intros HD HR HR' Hsp Hsp' Hred Hred'.
  induction j as [j IH] using lt_wf_ind. intros Hj i Hi.
  destruct (Hsp j Hj) as (s & Hs & Hlts & Hc).
  destruct (Hsp' j Hj) as (s' & Hs' & Hlts' & Hc').
  destruct (change_of_basis D R HD HR Hsp j ltac:(lia)
              (set_symmetric_difference s s')) as (t & Ht & Hltt & Heq).
  { eauto with asc. }
  { by apply symdiff_Forall. }
  set (T := set_symmetric_difference [j] t).
  assert (j ∉ t) as Hjt.
  { intros Hin. rewrite Forall_forall in Hltt. apply Hltt in Hin. lia. }
  assert (R' !!! j = combine R T) as HR'j.
  { subst T. rewrite combine_symdiff, combine_singleton, <-Heq by eauto with asc.
    rewrite combine_symdiff by done. rewrite Hc', Hc. gf2. }
  assert (ascending T) as HT by (subst T; eauto with asc).
  assert (Forall (λ k, k < n) T) as HTn.
  { subst T. apply symdiff_Forall; [by repeat constructor|].
    eapply Forall_impl; [done|]. intros; simpl in *; lia. }
  assert (j ∈ T) as HjT.
  { subst T. rewrite elem_of_symdiff, list_elem_of_singleton by eauto with asc. by left. }
  destruct (combine_reduced R T HR Hred HT HTn)
    as [[_ Hall]|(i' & k & Hi' & Hk & Hik & _)].
  { rewrite (Hall _ HjT) in Hi. by apply is_pivot_nonempty in Hi. }
  rewrite <-HR'j in Hi'.
  destruct (decide (k = j)) as [->|Hkj].
  { by rewrite (is_pivot_unique _ _ _ Hi Hik). }
  assert (k < j) as Hklt.
  { subst T. rewrite elem_of_symdiff, list_elem_of_singleton in Hk by eauto with asc.
    destruct Hk as [[-> _]|[Hk _]]; [done|].
    rewrite Forall_forall in Hltt. by apply Hltt in Hk. }
  apply (IH k Hklt ltac:(lia)) in Hik.
  exfalso. apply Hkj. apply (Hred' k j i'); [lia|done..].
Qed.

(** Pairing uniqueness: the pivots of a reduced matrix are determined by
    the matrix it was reduced from. *)
Lemma pivots_unique D R R' :
  Forall ascending D → Forall ascending R → Forall ascending R' →
  spanned n D R → spanned n D R' → reduced n R → reduced n R' →
  ∀ j, j < n → maximumIndex (R !!! j) = maximumIndex (R' !!! j).
Proof.
  intros HD HR HR' Hsp Hsp' Hred Hred' j Hj.
  destruct (decide (R !!! j = [])) as [He|Hne].
  - destruct (decide (R' !!! j = [])) as [He'|Hne']; [by rewrite He, He'|].
    apply nonempty_is_pivot in Hne' as [i Hi].
    eapply (pivot_transfer D R' R) in Hi; [|done..].
    rewrite He in Hi. by apply is_pivot_nonempty in Hi.
  - apply nonempty_is_pivot in Hne as [i Hi].
    pose proof Hi as Hi'. eapply (pivot_transfer D R R') in Hi'; [|done..].
    apply maximumIndex_true in Hi, Hi'. by rewrite Hi, Hi'.
Qed.

End Uniqueness.

(** ** The invariant of the reductions *)

Section ReductionInvariant.
(** The columns of the matrix handed to the reduction. *)
Variable D : list (list nat).
Local Abbreviation n := (length D).
Local Abbreviation dim k := (Vector.columnDimension (D !!! k)).

Hypothesis D_ascending : Forall ascending D.
Hypothesis D_triangular : ∀ j x, x ∈ D !!! j → x < j.
Hypothesis D_boundary : ∀ j, combine D (D !!! j) = [].
Hypothesis D_graded : ∀ j x, x ∈ D !!! j → dim x + 1 = dim j.

Lemma Inv_ext P P' st : (∀ k, P k ↔ P' k) → Inv D P st → Inv D P' st.
Proof.
  intros Hext [? ? ? ? ? Hl Ho Hp ?]. split; try done.
  - intros i k Hik. rewrite <-Hext. eauto.
  - intros i k Hk. apply Ho. by apply Hext.
  - intros i k. rewrite Hp, Hext. done.
Qed.

Lemma Inv_init M :
  _representation M = D → ∀ P, (∀ k, ¬ P k) → Inv D P (mkState M ∅ ∅ []).
Proof.
  intros HM P HP. split; unfold cols; simpl; rewrite ?HM; try done.
  - intros j Hj. exists []. split_and!; [eauto with asc|done|].
    simpl. by rewrite symdiff_nil_r.
  - intros i k Hk. by apply HP in Hk.
  - intros i k. rewrite elem_of_nil. split; [done|]. intros [Hk _]. by apply HP in Hk.
Qed.

Lemma lookup_total_insert_cols (c : list (list nat)) j k x :
  j < length c → <[j := x]> c !!! k = if decide (j = k) then x else c !!! k.
Proof.
  intros Hj. case_decide as Hjk.
  - subst. by rewrite list_lookup_total_insert_eq.
  - by rewrite list_lookup_total_insert_ne.
Qed.

(** Adding an earlier column into a later one keeps the later one in its
    span class. *)
Lemma in_span_add j k cj ck :
  k < j → in_span D j cj → in_span D k ck →
  in_span D j (Vector.set_symmetric_difference cj ck).
Proof.
  intros Hkj (sj & Hsj & Hltj & ->) (sk & Hsk & Hltk & ->).
  exists (Vector.set_symmetric_difference sj (Vector.set_symmetric_difference [k] sk)).
  split_and!.
  - eauto with asc.
  - apply symdiff_Forall; [done|]. apply symdiff_Forall; [by repeat constructor|].
    eapply Forall_impl; [done|]. intros; simpl in *; lia.
  - rewrite !combine_symdiff, combine_singleton by eauto with asc. gf2.
Qed.

Lemma combine_combine s : combine D (combine D s) = [].
Proof.
  induction s as [|k s IH]; [done|].
  rewrite combine_cons, combine_symdiff, IH, D_boundary by eauto with asc. done.
Qed.

(** The twist: a column that is the pivot of a reduced column is a
    combination of earlier columns, so it reduces to zero. *)
Lemma in_span_clear j i cj :
  ascending cj → in_span D j cj → is_pivot i cj → in_span D i [].
Proof.
  intros Hcj (sj & Hsj & Hltj & Heq) [Hi Hmax].
  exists (Vector.set_symmetric_difference cj [i]). split_and!.
  - eauto with asc.
  - apply Forall_forall. intros x.
    rewrite elem_of_symdiff, list_elem_of_singleton by eauto with asc.
    intros [[Hx Hne]|[-> Hne]]; [|done]. apply Hmax in Hx. lia.
  - rewrite combine_symdiff, combine_singleton by eauto with asc.
    assert (combine D cj = []) as ->.
    { rewrite Heq, combine_symdiff, D_boundary, combine_combine by eauto with asc. done. }
    simpl. by rewrite symdiff_diag by eauto with asc.
Qed.

Lemma Inv_add P st j k i :
  Inv D P st → j < n → ¬ P j → (∀ k, P k → dim k = dim j → k < j) →
  is_pivot i (cols st !!! j) → lut st !! i = Some k →
  Inv D P (mkState (addColumns k j (matrix st)) (lut st) (resolved st) (pairs st)) ∧
  ∀ x, x ∈ cols (mkState (addColumns k j (matrix st)) (lut st) (resolved st) (pairs st)) !!! j
       → x < i.
Proof.
  intros HI Hj HPj Hband Hi Hl.
  destruct (inv_lut _ _ _ HI _ _ Hl) as (HPk & Hkn & Hik).
  assert (j ≠ k) as Hjk by (by intros ->).
  assert (k < j) as Hkj.
  { apply Hband; [done|].
    pose proof (inv_graded _ _ _ HI j i (proj1 Hi)).
    pose proof (inv_graded _ _ _ HI k i (proj1 Hik)). lia. }
  pose proof (inv_ascending _ _ _ HI) as Hasc.
  assert (Hlen : j < length (cols st)) by (by rewrite (inv_length _ _ _ HI)).
  assert (Hnew : ∀ m, cols (mkState (addColumns k j (matrix st)) (lut st)
                                    (resolved st) (pairs st)) !!! m =
                      if decide (j = m)
                      then Vector.set_symmetric_difference (cols st !!! j) (cols st !!! k)
                      else cols st !!! m).
  { intros m. unfold cols at 1. simpl. unfold Vector.addColumns, Vector.getColumn.
    by apply lookup_total_insert_cols. }
  assert (Hkeep : ∀ m, P m → cols (mkState (addColumns k j (matrix st)) (lut st)
                                    (resolved st) (pairs st)) !!! m = cols st !!! m).
  { intros m Hm. rewrite Hnew. case_decide; [by subst|done]. }
  split; [split|].
  - unfold cols at 1. simpl. unfold Vector.addColumns.
    rewrite length_insert. apply (inv_length _ _ _ HI).
  - unfold cols at 1. simpl. unfold Vector.addColumns, Vector.getColumn.
    apply Forall_insert; [done|]. fold (cols st). eauto with asc.
  - intros m x. rewrite Hnew. case_decide as Hm; [subst m|apply (inv_triangular _ _ _ HI)].
    rewrite elem_of_symdiff by eauto with asc.
    intros [[Hx _]|[Hx _]].
    + by apply (inv_triangular _ _ _ HI) in Hx.
    + apply (inv_triangular _ _ _ HI) in Hx. lia.
  - intros m x. rewrite Hnew. case_decide as Hm; [subst m|apply (inv_graded _ _ _ HI)].
    rewrite elem_of_symdiff by eauto with asc.
    intros [[Hx _]|[Hx _]].
    + by apply (inv_graded _ _ _ HI) in Hx.
    + apply (inv_graded _ _ _ HI) in Hx.
      pose proof (inv_graded _ _ _ HI j i (proj1 Hi)).
      pose proof (inv_graded _ _ _ HI k i (proj1 Hik)). lia.
  - intros m Hm. rewrite Hnew. case_decide as Hjm; [subst m|by apply (inv_span _ _ _ HI)].
    apply (in_span_add _ k); [done|by apply (inv_span _ _ _ HI)..].
  - intros i' k' Hl'. simpl in Hl'.
    destruct (inv_lut _ _ _ HI _ _ Hl') as (? & ? & ?). rewrite Hkeep by done. done.
  - intros i' k' HP' Hk'. rewrite Hkeep by done. simpl. by apply (inv_owner _ _ _ HI).
  - intros i' k'. simpl. rewrite (inv_pairs _ _ _ HI).
    split; intros (HP' & ? & ?); split_and!; try done.
    + by rewrite Hkeep.
    + by rewrite <-Hkeep.
  - intros p Hp. simpl in Hp. rewrite Hnew. apply (inv_resolved _ _ _ HI) in Hp.
    case_decide; [subst p|done].
    rewrite Hp in Hi. by apply is_pivot_nonempty in Hi.
  - intros x. rewrite Hnew, decide_True by done.
    apply is_pivot_symdiff_eq; eauto with asc.
Qed.

Lemma getMaximumIndex_cols st j :
  getMaximumIndex (matrix st) j = Vector.maximumIndex (cols st !!! j).
Proof. reflexivity. Qed.

Lemma reduceColumn_S fuel owner j (M : BM) :
  reduceColumn (S fuel) owner j M =
    if (getMaximumIndex M j).2 then
      match owner !! (getMaximumIndex M j).1 with
      | Some k => reduceColumn fuel owner j (addColumns k j M)
      | None => Some M
      end
    else Some M.
Proof. cbn [reduceColumn]. by destruct (getMaximumIndex M j) as [i [|]]. Qed.

Lemma reduceColumn_inv P j b :
  j < n → ¬ P j → (∀ k, P k → dim k = dim j → k < j) →
  ∀ st, Inv D P st → (∀ x, x ∈ cols st !!! j → x < b) →
  ∃ M', reduceColumn (S b) (lut st) j (matrix st) = Some M' ∧
        Inv D P (mkState M' (lut st) (resolved st) (pairs st)) ∧
        ∀ i, is_pivot i (_representation M' !!! j) → lut st !! i = None.
Proof.
  intros Hj HPj Hband. induction b as [|b IH]; intros st HI Hb;
    rewrite reduceColumn_S, getMaximumIndex_cols;
    destruct (Vector.maximumIndex (cols st !!! j)) as [i [|]] eqn:Hmax; simpl.
  - apply maximumIndex_true in Hmax. pose proof (Hb i (proj1 Hmax)). lia.
  - apply maximumIndex_false in Hmax as [He _].
    exists (matrix st). split_and!; [done|by destruct st|].
    intros i'. fold (cols st). rewrite He. intros Hi. by apply is_pivot_nonempty in Hi.
  - apply maximumIndex_true in Hmax.
    destruct (lut st !! i) as [k|] eqn:Hl.
    + destruct (Inv_add P st j k i HI Hj HPj Hband Hmax Hl) as [HI' Hlt].
      destruct (IH _ HI') as (M' & Hred & HI'' & Hnone).
      { intros x Hx. apply Hlt in Hx. pose proof (Hb i (proj1 Hmax)). lia. }
      exists M'. done.
    + exists (matrix st). split_and!; [done|by destruct st|].
      intros i' Hi'. fold (cols st) in Hi'.
      by rewrite (is_pivot_unique _ _ _ Hi' Hmax).
  - apply maximumIndex_false in Hmax as [He _].
    exists (matrix st). split_and!; [done|by destruct st|].
    intros i'. fold (cols st). rewrite He. intros Hi. by apply is_pivot_nonempty in Hi.
Qed.

Lemma Inv_register P P' st j i :
  Inv D P st → j < n → (∀ k, P' k ↔ P k ∨ k = j) →
  is_pivot i (cols st !!! j) → lut st !! i = None →
  Inv D P' (mkState (matrix st) (<[i := j]> (lut st)) (resolved st) (pairs st ++ [(i, j)])).
Proof.
  intros HI Hj HP' Hi Hnone.
  destruct HI as [? ? ? ? ? Hl Ho Hp ?]. split; try done; unfold cols in *; simpl.
  - intros i' k. rewrite lookup_insert. case_decide as Hii.
    + intros [= <-]. subst i'. split_and!; [apply HP'; by right|done..].
    + intros Hl'. apply Hl in Hl' as (? & ? & ?). split_and!; [apply HP'; by left|done..].
  - intros i' k [HPk| ->]%HP' Hk Hik.
    + assert (i ≠ i') as Hii.
      { intros ->. apply Ho in Hik; [|done..]. congruence. }
      rewrite lookup_insert_ne by done. by apply Ho.
    + rewrite (is_pivot_unique _ _ _ Hik Hi). apply lookup_insert_eq.
  - intros i' k. rewrite elem_of_app, list_elem_of_singleton, Hp. split.
    + intros [(? & ? & ?)|[= -> ->]]; (split_and!; [apply HP'; by eauto|done..]).
    + intros ([HPk| ->]%HP' & ? & Hik); [by left|].
      right. by rewrite (is_pivot_unique _ _ _ Hik Hi).
Qed.

Lemma Inv_skip P P' st j :
  Inv D P st → (∀ k, P' k ↔ P k ∨ k = j) → cols st !!! j = [] → Inv D P' st.
Proof.
  intros HI HP' He.
  destruct HI as [? ? ? ? ? Hl Ho Hp ?]. split; try done.
  - intros i k Hl'. apply Hl in Hl' as (? & ? & ?). split_and!; [apply HP'; by left|done..].
  - intros i k [HPk| ->]%HP' Hk Hik; [by apply Ho|].
    rewrite He in Hik. by apply is_pivot_nonempty in Hik.
  - intros i k. rewrite Hp. split.
    + intros (? & ? & ?). split_and!; [apply HP'; by left|done..].
    + intros ([HPk| ->]%HP' & ? & Hik); [done|].
      rewrite He in Hik. by apply is_pivot_nonempty in Hik.
Qed.

Lemma lookup_total_clear (c : list (list nat)) i m :
  <[i := []]> c !!! m = if decide (i = m) then [] else c !!! m.
Proof.
  destruct (decide (i < length c)) as [Hlt|Hge].
  - by apply lookup_total_insert_cols.
  - rewrite list_insert_ge by lia. case_decide; [subst m|done].
    rewrite list_lookup_total_alt, lookup_ge_None_2 by lia. done.
Qed.

Lemma Inv_clear P st i :
  Inv D P st → ¬ P i → in_span D i [] →
  Inv D P (mkState (clearColumn i (matrix st)) (lut st) ({[i]} ∪ resolved st) (pairs st)).
Proof.
  intros HI HPi Hspan.
  assert (Hnew : ∀ m, cols (mkState (clearColumn i (matrix st)) (lut st)
                              ({[i]} ∪ resolved st) (pairs st)) !!! m =
                      if decide (i = m) then [] else cols st !!! m).
  { intros m. unfold cols at 1. simpl. apply lookup_total_clear. }
  assert (Hkeep : ∀ m, P m → cols (mkState (clearColumn i (matrix st)) (lut st)
                              ({[i]} ∪ resolved st) (pairs st)) !!! m = cols st !!! m).
  { intros m Hm. rewrite Hnew. case_decide; [by subst|done]. }
  split.
  - unfold cols at 1. simpl. unfold Vector.clearColumn.
    rewrite length_insert. apply (inv_length _ _ _ HI).
  - unfold cols at 1. simpl. unfold Vector.clearColumn.
    destruct (decide (i < length (cols st))).
    + apply Forall_insert; [apply (inv_ascending _ _ _ HI)|eauto with asc].
    + rewrite list_insert_ge by (unfold cols in *; lia). apply (inv_ascending _ _ _ HI).
  - intros m x. rewrite Hnew. case_decide; [by rewrite elem_of_nil|].
    apply (inv_triangular _ _ _ HI).
  - intros m x. rewrite Hnew. case_decide; [by rewrite elem_of_nil|].
    apply (inv_graded _ _ _ HI).
  - intros m Hm. rewrite Hnew. case_decide; [by subst m|by apply (inv_span _ _ _ HI)].
  - intros i' k' Hl'. simpl in Hl'.
    destruct (inv_lut _ _ _ HI _ _ Hl') as (? & ? & ?). rewrite Hkeep by done. done.
  - intros i' k' HP' Hk'. rewrite Hkeep by done. simpl. by apply (inv_owner _ _ _ HI).
  - intros i' k'. simpl. rewrite (inv_pairs _ _ _ HI).
    split; intros (HP' & ? & ?); split_and!; try done.
    + by rewrite Hkeep.
    + by rewrite <-Hkeep.
  - intros p. simpl. rewrite Hnew, elem_of_union, elem_of_singleton.
    intros [->|Hp]; [by rewrite decide_True|].
    case_decide; [done|]. by apply (inv_resolved _ _ _ HI).
Qed.

Lemma numColumns_inv P st : Inv D P st → getNumColumns (matrix st) = n.
Proof. intros HI. apply (inv_length _ _ _ HI). Qed.

(** One iteration of the standard reduction. *)
Lemma standardColumn_inv j st :
  j < n → Inv D (λ k, k < j) st →
  ∃ st', standardColumn st j = Some st' ∧ Inv D (λ k, k < S j) st'.
Proof.
  intros Hj HI. unfold standardColumn. rewrite (numColumns_inv _ _ HI).
  destruct (reduceColumn_inv (λ k, k < j) j n Hj) with (st := st)
    as (M' & -> & HI' & Hnone); [simpl; lia|simpl; intros; lia|done| |].
  { intros x Hx. apply (inv_triangular _ _ _ HI) in Hx. lia. }
  change (getMaximumIndex M' j) with (Vector.maximumIndex (_representation M' !!! j)).
  destruct (Vector.maximumIndex (_representation M' !!! j)) as [i [|]] eqn:Hmax.
  - apply maximumIndex_true in Hmax. eexists. split; [done|].
    apply (Inv_register _ _ _ j i HI'); [done|intros; lia|done|by apply Hnone].
  - apply maximumIndex_false in Hmax as [He _]. eexists. split; [done|].
    apply (Inv_skip _ _ _ j HI'); [intros; lia|done].
Qed.

Let dims : list nat := (λ k, dim k) <$> seq 0 n.

Lemma dims_lookup j : j < n → dims !!! j = dim j.
Proof.
  intros Hj. unfold dims. apply list_lookup_total_correct.
  rewrite list_lookup_fmap, lookup_seq_lt by done. done.
Qed.

(** One iteration of the twist reduction. *)
Lemma twistColumn_inv d j st :
  j < n → Inv D (processed D d j) st →
  ∃ st', twistColumn dims d st j = Some st' ∧ Inv D (processed D d (S j)) st'.
Proof.
  intros Hj HI. unfold twistColumn. rewrite dims_lookup by done.
  case_decide as Hcase.
  - destruct Hcase as [Hd Hres]. rewrite (numColumns_inv _ _ HI).
    destruct (reduceColumn_inv (processed D d j) j n Hj) with (st := st)
      as (M' & -> & HI' & Hnone); [| |done| |].
    { intros (_ & [?|[_ ?]]); lia. }
    { intros k (_ & [?|[_ ?]]) ?; lia. }
    { intros x Hx. apply (inv_triangular _ _ _ HI) in Hx. lia. }
    assert (Hnext : ∀ k, processed D d (S j) k ↔ processed D d j k ∨ k = j).
    { intros k. unfold processed. split; [|intros [?| ->]]; [|lia..].
      intros [? [?|[? ?]]]; destruct (decide (k = j)); auto; left; split; auto; lia. }
    change (getMaximumIndex M' j) with (Vector.maximumIndex (_representation M' !!! j)).
    destruct (Vector.maximumIndex (_representation M' !!! j)) as [i [|]] eqn:Hmax.
    + apply maximumIndex_true in Hmax. eexists. split; [done|].
      pose proof (Inv_register _ _ _ j i HI' Hj Hnext Hmax (Hnone _ Hmax)) as HI''.
      apply (Inv_clear _ _ i) in HI''; [done| |].
      * intros (_ & Hi). pose proof (inv_graded _ _ _ HI' j i (proj1 Hmax)). lia.
      * eapply (in_span_clear j); [|by apply (inv_span _ _ _ HI')|done].
        apply ascending_lookup_total, (inv_ascending _ _ _ HI').
    + apply maximumIndex_false in Hmax as [He _]. eexists. split; [done|].
      by apply (Inv_skip _ _ _ j HI').
  - exists st. split; [done|].
    destruct (decide (dim j = d)) as [Hd|Hd].
    + assert (j ∈ resolved st) as Hres.
      { destruct (decide (j ∈ resolved st)); [done|]. exfalso. by apply Hcase. }
      apply (Inv_skip _ _ _ j HI); [|by apply (inv_resolved _ _ _ HI)].
      intros k. unfold processed. split; [|intros [?| ->]]; [|lia..].
      intros [? [?|[? ?]]]; destruct (decide (k = j)); auto; left; split; auto; lia.
    + eapply Inv_ext; [|done]. intros k. unfold processed.
      destruct (decide (k = j)) as [->|]; intuition lia.
Qed.

End ReductionInvariant.

(** ** The loops of the reductions *)

Section Loops.
Context {S : Type}.

Lemma for_each_seq (body : S → nat → option S) (I : nat → S → Prop) len :
  ∀ a st,
  (∀ j st, a ≤ j < a + len → I j st → ∃ st', body st j = Some st' ∧ I (Datatypes.S j) st') →
  I a st → ∃ st', for_each body (seq a len) st = Some st' ∧ I (a + len) st'.
Proof.
  induction len as [|len IH]; intros a st Hbody Ha.
  { exists st. by rewrite Nat.add_0_r. }
  simpl. destruct (Hbody a st ltac:(lia) Ha) as (st1 & -> & H1).
  destruct (IH (Datatypes.S a) st1) as (st' & Hst' & HI'); [|done|].
  { intros j st2 Hj. apply Hbody. lia. }
  exists st'. split; [done|]. by rewrite <-Nat.add_succ_comm.
Qed.

Lemma for_each_reverse_seq (body : S → nat → option S) (I : nat → S → Prop) m :
  ∀ st,
  (∀ d st, d < m → I (Datatypes.S d) st → ∃ st', body st d = Some st' ∧ I d st') →
  I m st → ∃ st', for_each body (reverse (seq 0 m)) st = Some st' ∧ I 0 st'.
Proof.
  induction m as [|m IH]; intros st Hbody Hm.
  { by exists st. }
  rewrite seq_S, reverse_app. simpl.
  destruct (Hbody m st ltac:(lia) Hm) as (st1 & -> & H1).
  apply IH; [|done]. intros d st2 Hd. apply Hbody. lia.
Qed.

End Loops.

(** ** Standard and twist reduction emit the same pairs *)

Section Equivalence.
Variable M : BM.
Hypothesis M_valid : valid_boundary_matrix M.

Let D := _representation M.
Let n := length D.

Lemma standard_reduces :
  ∃ st, for_each standardColumn (seq 0 n) (mkState M ∅ ∅ []) = Some st ∧
        Inv D (λ k, k < n) st.
Proof.
  destruct M_valid as [Hasc Htri Hbd Hgr].
  apply (for_each_seq standardColumn (λ j st, Inv D (λ k, k < j) st) n 0).
  - intros j st Hj. by apply standardColumn_inv; [..|lia].
  - apply Inv_init; [done..|intros; lia].
Qed.

Lemma dimension_le_max k :
  k < n → Vector.columnDimension (D !!! k) ≤ getDimensionMax M.
Proof.
  intros Hk. apply max_list_elem_of_le, list_elem_of_fmap.
  exists (D !!! k). split; [done|]. apply list_elem_of_lookup_total_2. done.
Qed.

Lemma twist_reduces :
  ∃ st,
    for_each (λ st d, for_each (twistColumn (getDimension M <$> seq 0 n) d) (seq 0 n) st)
             (reverse (seq 0 (S (getDimensionMax M)))) (mkState M ∅ ∅ []) = Some st ∧
    Inv D (λ k, k < n) st.
Proof.
  destruct M_valid as [Hasc Htri Hbd Hgr].
  destruct (for_each_reverse_seq
    (λ st d, for_each (twistColumn (getDimension M <$> seq 0 n) d) (seq 0 n) st)
    (λ d st, Inv D (λ k, k < n ∧ d ≤ Vector.columnDimension (D !!! k)) st)
    (S (getDimensionMax M)) (mkState M ∅ ∅ [])) as (st & Hst & HI).
  - intros d st _ HI.
    destruct (for_each_seq (twistColumn (getDimension M <$> seq 0 n) d)
                (λ j st, Inv D (processed D d j) st) n 0 st) as (st' & Hst' & HI').
    + intros j st1 Hj. by apply twistColumn_inv; [..|lia].
    + eapply Inv_ext; [|done]. intros k. unfold processed. simpl. fold n. lia.
    + exists st'. split; [done|]. eapply Inv_ext; [|done].
      intros k. unfold processed. simpl. fold n. lia.
  - apply Inv_init; [done..|]. intros k [Hk Hle].
    pose proof (dimension_le_max k Hk). lia.
  - exists st. split; [done|]. eapply Inv_ext; [|done]. intros k. simpl. lia.
Qed.

Lemma Inv_reduced st : Inv D (λ k, k < n) st → reduced n (cols st).
Proof.
  intros HI j k i Hj Hk Hij Hik.
  apply (inv_owner _ _ _ HI) in Hij; [|done..].
  apply (inv_owner _ _ _ HI) in Hik; [|done..]. congruence.
Qed.

End Equivalence.

(** Claim C1.  For every valid boundary matrix M, both reduction strategies,
    each run on its own copy of M, terminate, and the set of (birth, death)
    index pairs produced by the standard reduction equals the set produced
    by the twist reduction. *)
Theorem standard_twist_equivalence (M : BM) :
  valid_boundary_matrix M →
  ∃ Ms ps Mt pt,
    StandardReduction M = Some (Ms, ps) ∧ TwistReduction M = Some (Mt, pt) ∧
    ∀ birth death, (birth, death) ∈ ps ↔ (birth, death) ∈ pt.
Proof.
  intros M_valid.
  destruct (standard_reduces M M_valid) as (ss & Hs & HIs).
  destruct (twist_reduces M M_valid) as (st & Ht & HIt).
  exists (matrix ss), (pairs ss), (matrix st), (pairs st).
  unfold StandardReduction, TwistReduction.
  change (getNumColumns M) with (length (_representation M)).
  rewrite Hs, Ht. split_and!; [done..|].
  intros i k. rewrite (inv_pairs _ _ _ HIs), (inv_pairs _ _ _ HIt).
  destruct M_valid as [Hasc Htri Hbd Hgr].
  set (n := length (_representation M)) in *.
  assert (∀ j, j < n →
            Vector.maximumIndex (cols ss !!! j) = Vector.maximumIndex (cols st !!! j))
    as Hpiv.
  { apply (pivots_unique n (_representation M)).
    - done.
    - apply (inv_ascending _ _ _ HIs).
    - apply (inv_ascending _ _ _ HIt).
    - apply (inv_span _ _ _ HIs).
    - apply (inv_span _ _ _ HIt).
    - by apply (Inv_reduced M).
    - by apply (Inv_reduced M). }
  split; intros (Hk & _ & Hp); split_and!; try done.
  - apply maximumIndex_true. rewrite <-Hpiv by done. by apply maximumIndex_true.
  - apply maximumIndex_true. rewrite Hpiv by done. by apply maximumIndex_true.
Qed.

Lemma triangle_valid : valid_boundary_matrix triangle.
Proof.
  split.
  - repeat constructor.
  - intros j x. unfold triangle, getColumn. cbn.
    destruct j as [|[|[|[|[|[|[|j]]]]]]]; cbn; intros Hx;
      repeat (apply elem_of_cons in Hx as [->|Hx]); try lia;
      by apply elem_of_nil in Hx.
  - intros j. unfold triangle, getColumn. cbn.
    destruct j as [|[|[|[|[|[|[|j]]]]]]]; reflexivity.
  - intros j x. unfold triangle, getColumn, getDimension. cbn.
    destruct j as [|[|[|[|[|[|[|j]]]]]]]; cbn; intros Hx;
      repeat (apply elem_of_cons in Hx as [->|Hx]); try reflexivity;
      by apply elem_of_nil in Hx.
Qed.

Lemma standard_twist_equivalence_witness :
  valid_boundary_matrix triangle ∧
  ∃ Ms ps Mt pt,
    StandardReduction triangle = Some (Ms, ps) ∧
    TwistReduction triangle = Some (Mt, pt) ∧
    ∀ birth death, (birth, death) ∈ ps ↔ (birth, death) ∈ pt.
Proof.
  split; [exact triangle_valid|].
  exact (standard_twist_equivalence triangle triangle_valid).
Defined.

(** The pairs of the triangle scenario, as both strategies emit them. *)
Lemma triangle_pairs :
  snd <$> StandardReduction triangle = Some [(1, 3); (2, 4); (5, 6)] ∧
  snd <$> TwistReduction triangle = Some [(5, 6); (1, 3); (2, 4)].
Proof. split; reflexivity. Qed.

(** Upper triangularity alone does not make a matrix valid: on a matrix
    whose columns are not the boundaries of a complex the two strategies
    differ. *)
Lemma no_complex_pairs :
  (∀ j x, x ∈ getColumn no_complex j → x < j) ∧
  snd <$> StandardReduction no_complex = Some [(0, 2); (2, 3)] ∧
  snd <$> TwistReduction no_complex = Some [(2, 3)].
Proof.
  split_and!; [|reflexivity..].
  intros j x. unfold no_complex, getColumn. cbn.
  destruct j as [|[|[|[|j]]]]; cbn; intros Hx;
    repeat (apply elem_of_cons in Hx as [->|Hx]); try lia;
    by apply elem_of_nil in Hx.
Qed.

(** ** Column addition and pivot queries *)

Section ColumnStore.



Lemma addColumns_self_clears (M : BM) (j : Index) :
  Forall ascending (_representation M) → j < getNumColumns M →
  getColumn (addColumns j j M) j = [].
Proof.
  intros Hasc Hj. unfold getColumn, addColumns. simpl.
  unfold Vector.getColumn, Vector.addColumns, Vector.getColumn.
  rewrite list_lookup_total_insert_eq by done. apply symdiff_diag. eauto with asc.
Qed.






End ColumnStore.

(** ** Dualization is an involution *)

Section Normalize.

Lemma elem_of_insert_sorted x y c :
  y ∈ Vector.insert_sorted x c ↔ y = x ∨ y ∈ c.
Proof.
  induction c as [|z c IH]; simpl.
  { rewrite list_elem_of_singleton, elem_of_nil. tauto. }
  destruct (x <=? z); rewrite !elem_of_cons; [done|]. rewrite IH. tauto.
Qed.

Lemma insert_sorted_ascending x c :
  ascending c → x ∉ c → ascending (Vector.insert_sorted x c).
Proof.
  induction c as [|z c IH]; intros Hc Hx; simpl.
  { apply ascending_singleton. }
  apply not_elem_of_cons in Hx as [Hxz Hx].
  destruct (x <=? z) eqn:Hle.
  - apply Nat.leb_le in Hle. apply ascending_cons. split; [|done].
    apply ascending_cons in Hc as [Hz _]. constructor; [lia|].
    eapply Forall_impl; [done|]. intros; simpl in *; lia.
  - apply Nat.leb_gt in Hle. apply ascending_cons in Hc as [Hz Hc].
    apply ascending_cons. split; [|by apply IH].
    apply Forall_forall. intros y [->|Hy]%elem_of_insert_sorted; [done|].
    rewrite Forall_forall in Hz. by apply Hz.
Qed.

Lemma elem_of_normalize x l : x ∈ Vector.normalize l ↔ x ∈ l.
Proof.
  induction l as [|y l IH]; [done|].
  unfold Vector.normalize in *. simpl. rewrite elem_of_insert_sorted, IH, elem_of_cons. done.
Qed.

Lemma normalize_ascending l : NoDup l → ascending (Vector.normalize l).
Proof.
  induction 1 as [|y l Hy Hl IH]; [apply ascending_nil|].
  unfold Vector.normalize in *. simpl. apply insert_sorted_ascending; [done|].
  by rewrite (elem_of_normalize y l).
Qed.

Lemma ascending_NoDup c : ascending c → NoDup c.
Proof.
  induction c as [|x c IH]; intros Hc; [constructor|].
  pose proof (ascending_head_notin _ _ Hc). apply ascending_cons in Hc as [_ Hc].
  constructor; auto.
Qed.

End Normalize.

Section DualizationFacts.

Variable D : list (list nat).
Local Abbreviation n := (length D).
Hypothesis D_ascending : Forall ascending D.
Hypothesis D_bounded : ∀ j x, x ∈ D !!! j → x < n.

Lemma scatter_length c column dual :
  length (scatterColumn n c column dual) = length dual.
Proof.
  unfold scatterColumn. revert dual.
  induction column as [|r column IH]; intros dual; simpl; [done|].
  by rewrite IH, length_alter.
Qed.

Lemma scatter_lookup c column dual k :
  k < n → length dual = n → NoDup column → Forall (λ r, r < n) column →
  scatterColumn n c column dual !!! k =
    dual !!! k ++ (if decide ((n - 1 - k) ∈ column) then [n - 1 - c] else []).
Proof.
  intros Hk. unfold scatterColumn. revert dual.
  induction column as [|r column IH]; intros dual Hlen Hnd Hlt; cbn [foldl].
  { rewrite decide_False by apply not_elem_of_nil. by rewrite app_nil_r. }
  apply NoDup_cons in Hnd as [Hr Hnd]. apply Forall_cons in Hlt as [Hrn Hlt].
  rewrite IH by (rewrite ?length_alter; done).
  destruct (decide (n - 1 - r = k)) as [Heq|Hneq].
  - assert (n - 1 - k = r) as Hrk by lia. rewrite Hrk, Heq.
    rewrite list_lookup_total_alter_eq by lia.
    rewrite decide_False by done. rewrite decide_True by (by left).
    by rewrite app_nil_r.
  - rewrite list_lookup_total_alter_ne by done.
    destruct (decide (n - 1 - k ∈ column)) as [Hin|Hnin].
    + by rewrite decide_True by (by right).
    + rewrite decide_False; [done|]. intros [?|?]%elem_of_cons; [lia|done].
Qed.

Lemma scattered_length m : length (scattered D m) = n.
Proof.
  unfold scattered. induction m as [|m IH]; [simpl; by rewrite length_replicate|].
  rewrite seq_S, foldl_app. simpl. by rewrite scatter_length.
Qed.

Lemma scattered_lookup m k :
  m ≤ n → k < n →
  scattered D m !!! k =
    (λ c, n - 1 - c) <$> filter (λ c, (n - 1 - k) ∈ D !!! c) (seq 0 m).
Proof.
  intros Hm Hk. induction m as [|m IH].
  { unfold scattered. simpl. by rewrite lookup_total_replicate_2. }
  unfold scattered in *. rewrite seq_S, foldl_app. simpl.
  rewrite scatter_lookup; [|done|apply scattered_length| |].
  - rewrite IH by lia. rewrite filter_app, fmap_app. f_equal.
    rewrite filter_cons, filter_nil. by case_decide.
  - apply ascending_NoDup. eauto with asc.
  - apply Forall_forall. intros x. apply D_bounded.
Qed.

Lemma elem_of_scattered k x :
  k < n → x ∈ scattered D n !!! k ↔ ∃ c, c < n ∧ x = n - 1 - c ∧ (n - 1 - k) ∈ D !!! c.
Proof.
  intros Hk. rewrite scattered_lookup, list_elem_of_fmap by done.
  split.
  - intros (c & -> & [Hin Hc]%list_elem_of_filter). exists c.
    apply elem_of_seq in Hc. split_and!; [lia|done..].
  - intros (c & Hc & -> & Hin). exists c. split; [done|].
    apply list_elem_of_filter. split; [done|]. apply elem_of_seq. lia.
Qed.

Lemma scattered_NoDup k : k < n → NoDup (scattered D n !!! k).
Proof.
  intros Hk. rewrite scattered_lookup by done.
  apply NoDup_fmap_2_strong.
  - intros c c' [_ Hc%elem_of_seq]%list_elem_of_filter
      [_ Hc'%elem_of_seq]%list_elem_of_filter. lia.
  - apply NoDup_filter, NoDup_seq.
Qed.

End DualizationFacts.

Section Involution.

Lemma stored_columns (M : BM) (dual : list (list nat)) (m : nat) :
  let n := getNumColumns M in
  let N := foldl (λ N j, setColumn j (dual !!! j) N) (setNumColumns n M) (seq 0 m) in
  m ≤ n →
  length (_representation N) = n ∧ _isDualized N = _isDualized M ∧
  ∀ k, k < m → _representation N !!! k = Vector.normalize (dual !!! k).
Proof.
  intros n. induction m as [|m IH]; intros N Hm.
  { subst N. simpl. unfold Vector.setNumColumns. rewrite length_replicate.
    split_and!; [done..|]. intros; lia. }
  subst N. rewrite seq_S, foldl_app. simpl.
  destruct IH as (Hlen & Hflag & Hcols); [lia|].
  unfold Vector.setColumn. rewrite length_insert.
  split_and!; [done..|]. intros k Hk.
  destruct (decide (k = m)) as [->|Hne].
  - rewrite list_lookup_total_insert_eq by lia. done.
  - rewrite list_lookup_total_insert_ne by done. apply Hcols. lia.
Qed.

Lemma dualizeTrivial_columns (M : BM) :
  well_formed M →
  let n := getNumColumns M in
  let N := dualizeTrivial M in
  length (_representation N) = n ∧ _isDualized N = negb (_isDualized M) ∧
  (∀ k x, k < n →
     x ∈ _representation N !!! k ↔
     ∃ c, c < n ∧ x = n - 1 - c ∧ (n - 1 - k) ∈ _representation M !!! c) ∧
  well_formed N.
Proof.
  intros [Hasc Hbound] n N.
  destruct (stored_columns M (dualColumns M) n ltac:(done)) as (Hlen & _ & Hcols).
  fold n in Hlen, Hcols.
  change (length (_representation N) = n) in Hlen.
  change (∀ k, k < n → _representation N !!! k = Vector.normalize (dualColumns M !!! k))
    in Hcols.
  assert (Hmem : ∀ k x, k < n →
     x ∈ _representation N !!! k ↔
     ∃ c, c < n ∧ x = n - 1 - c ∧ (n - 1 - k) ∈ _representation M !!! c).
  { intros k x Hk. rewrite Hcols, elem_of_normalize by done.
    by apply (elem_of_scattered (_representation M)). }
  split_and!; [done|done|done|]. split.
  - apply Forall_lookup. intros k c Hc.
    assert (k < n) as Hk by (rewrite <-Hlen; by eapply lookup_lt_Some).
    apply list_lookup_total_correct in Hc as <-. rewrite Hcols by done.
    apply normalize_ascending. by apply (scattered_NoDup (_representation M)).
  - intros k x. change (getColumn N k) with (_representation N !!! k).
    change (getNumColumns N) with (length (_representation N)). rewrite Hlen.
    destruct (decide (k < n)) as [Hk|Hk].
    + rewrite Hmem by done. intros (c & Hc & -> & _). lia.
    + rewrite list_lookup_total_alt, lookup_ge_None_2 by lia.
      simpl. by rewrite elem_of_nil.
Qed.

Lemma list_eq_lookup_total (l1 l2 : list (list nat)) :
  length l1 = length l2 → (∀ k, k < length l1 → l1 !!! k = l2 !!! k) → l1 = l2.
Proof.
  intros Hlen Hcols. apply list_eq. intros k.
  destruct (decide (k < length l1)) as [Hk|Hk].
  - rewrite (list_lookup_lookup_total_lt l1 k), (list_lookup_lookup_total_lt l2 k) by lia.
    f_equal. by apply Hcols.
  - by rewrite !lookup_ge_None_2 by lia.
Qed.

Lemma BM_ext (A B : BM) :
  _representation A = _representation B → _isDualized A = _isDualized B → A = B.
Proof. destruct A, B. simpl. by intros -> ->. Qed.

(** Claim C2.  For every boundary matrix M (sorted columns, entries below the
    number of columns), [dualize(dualize(M))] reproduces the columns of M
    exactly, and its dualized flag is the flag of M. *)
Theorem dualizeTrivial_involution (M : BM) :
  well_formed M → dualizeTrivial (dualizeTrivial M) = M.
Proof.
  intros Hwf.
  pose proof (dualizeTrivial_columns M Hwf) as H1. cbv zeta in H1.
  destruct H1 as (Hlen & Hflag & Hmem & Hwf').
  pose proof (dualizeTrivial_columns _ Hwf') as H2. cbv zeta in H2.
  assert (getNumColumns (dualizeTrivial M) = getNumColumns M) as HnN by exact Hlen.
  rewrite HnN in H2. destruct H2 as (Hlen' & Hflag' & Hmem' & Hwf'').
  set (n := getNumColumns M) in *.
  assert (_representation (dualizeTrivial (dualizeTrivial M)) = _representation M) as Hrep.
  { apply list_eq_lookup_total; [by rewrite Hlen'|].
    rewrite Hlen'. intros k Hk.
    destruct Hwf as [Hasc Hbound]. destruct Hwf'' as [Hasc'' _].
    apply ascending_ext; [eauto with asc..|]. intros x.
    rewrite Hmem' by done. split.
    - intros (c & Hc & -> & Hin). apply Hmem in Hin as (c' & Hc' & Heq & Hin); [|done].
      assert (c' = k) as -> by lia. done.
    - intros Hin. pose proof (Hbound k x Hin) as Hx. fold n in Hx.
      exists (n - 1 - x). split_and!; [lia..|].
      apply Hmem; [lia|]. exists k. split_and!; [done|lia|].
      by replace (n - 1 - (n - 1 - x)) with x by lia. }
  apply BM_ext; [exact Hrep|]. by rewrite Hflag', Hflag, negb_involutive.
Qed.

End Involution.

Lemma triangle_well_formed : well_formed triangle.
Proof.
  split; [repeat constructor|].
  intros j x Hx. apply (valid_triangular _ triangle_valid) in Hx as Hlt.
  destruct (decide (j < 7)) as [|Hge]; [cbn; lia|].
  unfold triangle, getColumn in Hx. cbn in Hx. unfold Vector.getColumn in Hx.
  rewrite list_lookup_total_alt, lookup_ge_None_2 in Hx by (cbn; lia).
  by apply elem_of_nil in Hx.
Qed.

Lemma dualizeTrivial_involution_witness :
  well_formed triangle ∧ dualizeTrivial (dualizeTrivial triangle) = triangle.
Proof.
  split; [exact triangle_well_formed|].
  exact (dualizeTrivial_involution triangle triangle_well_formed).
Defined.

(** ** Persistence diagrams *)

Section DiagramFacts.
Context {T : Type} `{DataType T}.

Lemma isUnpaired_sentinel (p : Point T) : isUnpaired p = dt_eqb (y p) sentinel.
Proof.
  unfold isUnpaired, sentinel, y. destruct dt_has_infinity; simpl.
  - by rewrite orb_false_r.
  - done.
Qed.

Lemma count_if_filter (pred : Point T → bool) (v : list (Point T)) :
  count_if pred v = length (filter (λ p, pred p = true) v).
Proof.
  unfold count_if.
  assert (∀ a, foldl (λ count p, if pred p then S count else count) a v =
               a + length (filter (λ p, pred p = true) v)) as Hgen.
  { induction v as [|p v IH]; intros a; simpl; [lia|].
    rewrite IH, filter_cons. destruct (pred p) eqn:Hp.
    - rewrite decide_True by done. simpl. lia.
    - rewrite decide_False by congruence. done. }
  apply Hgen.
Qed.

(** Claim C5.  [betti()] returns the number of points whose death value is
    the sentinel of the data type: its infinity when it has one, otherwise
    its maximum value. *)
Theorem betti_counts_unpaired (D : PersistenceDiagram T) :
  betti D = length (filter (λ p, dt_eqb (y p) sentinel = true) (_points D)).
Proof.
  unfold betti. rewrite count_if_filter. f_equal.
  apply list_filter_iff. intros p. by rewrite isUnpaired_sentinel.
Qed.

Lemma filter_none (P : Point T → Prop) `{∀ p, Decision (P p)} (l : list (Point T)) :
  (∀ p, p ∈ l → ¬ P p) → filter P l = [].
Proof.
  induction l as [|p l IH]; intros Hall; [done|].
  rewrite filter_cons_False by (apply Hall; by left).
  apply IH. intros q Hq. apply Hall. by right.
Qed.

(** The loop of [remove_if] after its first [m] iterations. *)
Lemma remove_if_prefix (pred : Point T → bool) (v : list (Point T)) (m : nat) :
  m ≤ length v →
  ∃ v' r, foldl (remove_if_step pred) (v, 0) (seq 0 m) = (v', r) ∧
          length v' = length v ∧ r ≤ m ∧
          take r v' = filter (λ p, pred p = false) (take m v) ∧
          drop m v' = drop m v.
Proof.
  induction m as [|m IH]; intros Hm.
  { exists v, 0. by rewrite !take_0. }
  destruct IH as (v' & r & Hfold & Hlen & Hr & Htake & Hdrop); [lia|].
  rewrite seq_S, foldl_app, Hfold. simpl.
  destruct (lookup_lt_is_Some_2 v m ltac:(lia)) as [p Hp].
  assert (v' !! m = Some p) as Hp'.
  { rewrite <-(Nat.add_0_r m), <-lookup_drop, Hdrop, lookup_drop, Nat.add_0_r. done. }
  assert (drop (S m) v' = drop (S m) v) as Hdrop'.
  { replace (S m) with (m + 1) by lia. by rewrite <-!drop_drop, Hdrop. }
  rewrite Hp', (take_S_r v m p), filter_app, filter_cons, filter_nil by done.
  destruct (pred p) eqn:Hpred.
  - exists v', r. rewrite decide_False by congruence.
    rewrite app_nil_r. split_and!; [done|done|lia|done|done].
  - exists (<[r := p]> v'), (S r). rewrite decide_True by done.
    split_and!; [done|by rewrite length_insert|lia| |].
    + rewrite (take_S_r _ r p) by (apply list_lookup_insert_eq; lia).
      by rewrite take_insert_ge, Htake by lia.
    + by rewrite drop_insert_lt by lia.
Qed.

Lemma erase_remove_if_filter (pred : Point T → bool) (v : list (Point T)) :
  erase_remove_if pred v = filter (λ p, pred p = false) v.
Proof.
  unfold erase_remove_if, remove_if.
  destruct (remove_if_prefix pred v (length v)) as (v' & r & -> & _ & _ & Htake & _); [done|].
  by rewrite Htake, firstn_all.
Qed.

(** Claim C9.  After [removeUnpaired()] the points are exactly the points
    that were not unpaired, in their original relative order; none of them
    is unpaired, the Betti number is 0, and the dimension is unchanged. *)
Theorem removeUnpaired_spec (D : PersistenceDiagram T) :
  _points (removeUnpaired D) = filter (λ p, isUnpaired p = false) (_points D) ∧
  (∀ p, p ∈ _points (removeUnpaired D) → isUnpaired p = false) ∧
  betti (removeUnpaired D) = 0 ∧
  _points (removeUnpaired D) `sublist_of` _points D ∧
  dimension (removeUnpaired D) = dimension D.
Proof.
  assert (_points (removeUnpaired D) = filter (λ p, isUnpaired p = false) (_points D)) as Heq.
  { apply erase_remove_if_filter. }
  split_and!; [done| | | |done].
  - intros p. rewrite Heq, list_elem_of_filter. tauto.
  - unfold betti. rewrite count_if_filter, Heq.
    apply length_zero_iff_nil, filter_none.
    intros p. rewrite list_elem_of_filter. intros [Hp _]. congruence.
  - rewrite Heq. apply sublist_filter.
Qed.

(** Claim C10.  [D.merge(E)] on two distinct diagram objects makes the
    points of D its previous points followed by all points of E, so its
    size is the sum of both sizes; it leaves E, every other object and the
    dimension of D unchanged. *)
Theorem merge_at_spec (σ : gmap nat (PersistenceDiagram T)) (d e : nat)
    (D E : PersistenceDiagram T) :
  d ≠ e → σ !! d = Some D → σ !! e = Some E →
  ∃ σ' D', merge_at d e σ = Some σ' ∧ σ' !! d = Some D' ∧
           _points D' = _points D ++ _points E ∧
           size D' = size D + size E ∧
           dimension D' = dimension D ∧
           σ' !! e = Some E ∧
           ∀ o, o ≠ d → σ' !! o = σ !! o.
Proof.
  intros Hne HD HE. exists (<[d := merge D E]> σ), (merge D E).
  unfold merge_at. rewrite HD, HE. split_and!.
  - done.
  - apply lookup_insert_eq.
  - done.
  - unfold size. simpl. apply length_app.
  - done.
  - by rewrite lookup_insert_ne.
  - intros o Ho. by rewrite lookup_insert_ne.
Qed.

Lemma populate_points (l : list (T * T)) :
  _points (populate l) = (λ xy, mkPoint xy.1 xy.2) <$> l.
Proof.
  unfold populate.
  assert (∀ D, _points (foldl (λ D xy, add xy.1 xy.2 D) D l) =
               _points D ++ ((λ xy, mkPoint xy.1 xy.2) <$> l)) as Hgen.
  { induction l as [|xy l IH]; intros D; simpl; [by rewrite app_nil_r|].
    rewrite IH. simpl. by rewrite <-app_assoc. }
  apply Hgen.
Qed.

End DiagramFacts.

Section SignedPersistence.
Variable digits : nat.

Local Abbreviation signed := (signed_DataType digits) (only parsing).

Lemma wrap_signed_small (z : Z) :
  (- 2 ^ Z.of_nat digits ≤ z ≤ 2 ^ Z.of_nat digits - 1)%Z → wrap_signed digits z = z.
Proof.
  intros Hz. unfold wrap_signed.
  rewrite Z.pow_add_r, Z.pow_1_r by lia.
  rewrite Z.mod_small by lia. lia.
Qed.

(** Claim C6, for points with x <= y.  The diagram stores whatever pair
    [add] is given.  On a signed integral data type, [persistence()] of the
    points of a diagram that was populated with pairs x <= y whose
    difference does not exceed the largest value of the type is the integer
    y - x, and it is not negative. *)
Theorem persistence_nonnegative (l : list (Z * Z)) :
  Forall (λ xy, (xy.1 ≤ xy.2 ∧ xy.2 - xy.1 ≤ @dt_max Z signed)%Z) l →
  ∀ p, p ∈ _points (populate l) →
       (@persistence Z signed p = y p - x p ∧ 0 ≤ @persistence Z signed p)%Z.
Proof.
  intros Hl p. rewrite populate_points, list_elem_of_fmap.
  intros ([a b] & -> & Hin).
  rewrite Forall_forall in Hl. destruct (Hl _ Hin) as [Hle Hmax].
  unfold persistence, y, x.
  cbn [_x _y fst snd dt_sub dt_max signed_DataType] in *.
  rewrite wrap_signed_small by lia. lia.
Qed.

End SignedPersistence.

Lemma persistence_nonnegative_witness :
  Forall (λ xy : Z * Z, (xy.1 ≤ xy.2 ∧ xy.2 - xy.1 ≤ dt_max)%Z) [(1, 3)%Z] ∧
  ∀ p, p ∈ _points (populate [(1, 3)%Z]) →
       (persistence p = y p - x p ∧ 0 ≤ persistence p)%Z.
Proof.
  assert (Forall (λ xy : Z * Z, (xy.1 ≤ xy.2 ∧ xy.2 - xy.1 ≤ dt_max)%Z) [(1, 3)%Z])
    as Hl.
  { repeat constructor; vm_compute; discriminate. }
  split; [exact Hl|]. exact (persistence_nonnegative 63 [(1, 3)%Z] Hl).
Defined.

(** The difference of a pair x <= y can exceed the largest value: the
    unpaired point that [add( x )] stores for a negative x has its death at
    the largest value, and its persistence overflows. *)
Lemma persistence_overflow :
  ∃ p : Point Z, p ∈ _points (add1 (-1)%Z emptyDiagram) ∧
                 dt_ltb (y p) (x p) = false ∧
                 (y p - x p = 2 ^ 63)%Z ∧ (persistence p < 0)%Z.
Proof.
  exists (Point_unpaired (-1)%Z). split_and!; [by left|by vm_compute..].
Qed.

(** A diagram accepts a point that dies before it is born. *)
Lemma persistence_negative_counterexample :
  ∃ p : Point Z, p ∈ _points (add 3%Z 1%Z emptyDiagram) ∧
                 persistence p = (-2)%Z ∧ dt_ltb (persistence p) 0%Z = true ∧
                 dt_ltb (y p) (x p) = true.
Proof.
  exists (mkPoint 3%Z 1%Z). split_and!; [by left|by vm_compute..].
Qed.

Lemma removeUnpaired_spec_witness :
  let D : PersistenceDiagram Z := add1 3%Z (add 1%Z 2%Z (add1 5%Z emptyDiagram)) in
  _points (removeUnpaired D) = filter (λ p, isUnpaired p = false) (_points D) ∧
  (∀ p, p ∈ _points (removeUnpaired D) → isUnpaired p = false) ∧
  betti (removeUnpaired D) = 0 ∧
  _points (removeUnpaired D) `sublist_of` _points D ∧
  dimension (removeUnpaired D) = dimension D.
Proof. intros D. exact (removeUnpaired_spec D). Defined.

Lemma merge_at_witness :
  let D := add 1%Z 2%Z emptyDiagram in
  let E := add 1%Z 2%Z (add1 5%Z emptyDiagram) in
  let σ : gmap nat (PersistenceDiagram Z) := <[0 := D]> (<[1 := E]> ∅) in
  0 ≠ 1 ∧ σ !! 0 = Some D ∧ σ !! 1 = Some E ∧
  ∃ σ' D', merge_at 0 1 σ = Some σ' ∧ σ' !! 0 = Some D' ∧
           _points D' = _points D ++ _points E ∧
           size D' = size D + size E ∧
           dimension D' = dimension D ∧
           σ' !! 1 = Some E ∧
           ∀ o, o ≠ 0 → σ' !! o = σ !! o.
Proof.
  intros D E σ.
  assert (0 ≠ 1) as Hne by lia.
  assert (σ !! 0 = Some D) as HD by reflexivity.
  assert (σ !! 1 = Some E) as HE by reflexivity.
  split_and!; [exact Hne|exact HD|exact HE|].
  exact (merge_at_spec σ 0 1 D E Hne HD HE).
Defined.

(** ** Text output *)

Section StringFacts.

Lemma string_app_cons ch (a b : string) : (String ch a ++ b = String ch (a ++ b))%string.
Proof. reflexivity. Qed.

Lemma string_app_nil_l (a : string) : ("" ++ a = a)%string.
Proof. reflexivity. Qed.

Lemma string_app_assoc (a b c : string) : ((a ++ b) ++ c = a ++ (b ++ c))%string.
Proof.
  induction a as [|ch a IH]; [done|]. rewrite !string_app_cons. by rewrite IH.
Qed.

Lemma string_app_nil_r (a : string) : (a ++ "" = a)%string.
Proof. induction a as [|ch a IH]; [done|]. rewrite string_app_cons. by rewrite IH. Qed.

Lemma string_concat_cons (s : string) (l : list string) :
  String.concat "" (s :: l) = (s ++ String.concat "" l)%string.
Proof. destruct l; simpl; [by rewrite string_app_nil_r|done]. Qed.

Lemma single_line_app a b : single_line (a ++ b) = single_line a && single_line b.
Proof.
  induction a as [|c a IH]; [done|].
  rewrite string_app_cons. simpl. rewrite IH. by rewrite andb_assoc.
Qed.

Lemma single_line_uint d : single_line (NilEmpty.string_of_uint d) = true.
Proof. induction d; simpl; done. Qed.

Lemma single_line_show_index c : single_line (show_index c) = true.
Proof. apply single_line_uint. Qed.

Lemma count_lines_single_line s rest pending :
  single_line s = true →
  count_lines (s ++ newline ++ rest) pending = S (count_lines rest false).
Proof.
  revert pending. induction s as [|c s IH]; intros pending Hs; [done|].
  rewrite string_app_cons. simpl in *.
  apply andb_true_iff in Hs as [Hc Hs]. apply negb_true_iff in Hc.
  rewrite Hc. by apply IH.
Qed.

End StringFacts.

Section OutputFacts.
Context {R : Type} `{Representation R}.

Lemma print_indices_concat o column :
  print_indices o column = (o ++ String.concat "" (output_index <$> column))%string.
Proof.
  revert o. induction column as [|c column IH]; intros o.
  { simpl. by rewrite string_app_nil_r. }
  rewrite fmap_cons, string_concat_cons. unfold print_indices in *. simpl.
  rewrite IH. unfold output_index. by rewrite !string_app_assoc.
Qed.

Lemma print_column_line (M : BoundaryMatrix R) o j :
  print_column M o j = (o ++ output_line (getColumn M j))%string.
Proof.
  unfold print_column, output_line. destruct (getColumn M j) as [|c column].
  - by rewrite string_app_assoc.
  - by rewrite print_indices_concat, string_app_assoc.
Qed.

Lemma print_columns_concat (M : BoundaryMatrix R) o (js : list Index) :
  foldl (print_column M) o js =
    (o ++ String.concat "" (output_line <$> (getColumn M <$> js)))%string.
Proof.
  revert o. induction js as [|j js IH]; intros o.
  { simpl. by rewrite string_app_nil_r. }
  rewrite !fmap_cons, string_concat_cons. simpl.
  by rewrite IH, print_column_line, string_app_assoc.
Qed.

Lemma single_line_indices (column : list Index) :
  single_line (String.concat "" (output_index <$> column)) = true.
Proof.
  induction column as [|c column IH]; [done|].
  rewrite fmap_cons, string_concat_cons, single_line_app, IH.
  unfold output_index. by rewrite single_line_app, single_line_show_index.
Qed.

Lemma count_lines_output (columns : list (list Index)) :
  count_lines (String.concat "" (output_line <$> columns)) false = length columns.
Proof.
  induction columns as [|column columns IH]; [done|].
  rewrite fmap_cons, string_concat_cons. unfold output_line at 1.
  rewrite string_app_assoc, count_lines_single_line.
  - simpl. by rewrite IH.
  - destruct column; [done|apply single_line_indices].
Qed.

(** Claim C8, with a space after every index.  The text written for a
    matrix is, in column order, one line per column: every index of the
    column, in the order [getColumn] yields them, followed by one space, or
    a single [-] for an empty column, and then the newline; reading the
    text back line by line gives exactly one line per column. *)
Theorem operator_shl_spec (M : BoundaryMatrix R) :
  (∀ o, operator_shl o M =
     (o ++ String.concat ""
             (output_line <$> (getColumn M <$> seq 0 (getNumColumns M))))%string) ∧
  count_lines (operator_shl "" M) false = getNumColumns M.
Proof.
  assert (∀ o, operator_shl o M =
     (o ++ String.concat ""
             (output_line <$> (getColumn M <$> seq 0 (getNumColumns M))))%string) as Heq.
  { intros o. unfold operator_shl. by rewrite print_columns_concat. }
  split; [done|]. rewrite Heq, string_app_nil_l, count_lines_output.
  by rewrite !length_fmap, length_seq.
Qed.

End OutputFacts.

(** The line of a non-empty column ends with a space before the newline. *)
Lemma serialization_counterexample :
  operator_shl "" two_columns = ("-" ++ newline ++ "0 " ++ newline)%string ∧
  spec_serialization two_columns = ("-" ++ newline ++ "0" ++ newline)%string ∧
  operator_shl "" two_columns ≠ spec_serialization two_columns.
Proof. split_and!; [reflexivity|reflexivity|discriminate]. Qed.

(** ** The bipartite adjacency matrix reader *)

Section ReaderFacts.
Context `{SimplexTypes}.
Variable sort : list Simplex → list Simplex.

Lemma count_lines_pending input : 1 ≤ count_lines input true.
Proof.
  induction input as [|c input IH]; simpl; [done|].
  destruct (is_newline c); lia.
Qed.

(** Values can only be extracted from a stream that holds a line, so the
    divisions by the height are defined. *)
Lemma extract_values_lines input :
  extract_values input Idle ≠ [] → 1 ≤ count_lines input false.
Proof.
  destruct input as [|c input]; [done|]. intros _. simpl.
  destruct (is_newline c); [lia|apply count_lines_pending].
Qed.

(** Claim C7, for the inputs the reader rejects.  When no value can be read
    the reader returns without an error and leaves the complex untouched;
    when the number of values is not a multiple of the number of lines it
    throws the format error with the complex untouched; whenever it throws,
    the complex is the one it was given. *)
Theorem read_malformed (input : string) (reader : BipartiteAdjacencyMatrixReader)
    (K : list Simplex) :
  let values := extract_values input Idle in
  let height := count_lines input false in
  (values = [] → read sort input reader K = Returned reader K) ∧
  (values ≠ [] → length values mod height ≠ 0 →
   read sort input reader K =
     Thrown format_error
            (mkReader height (length values / height)
                      (_assignMinimumAbsoluteVertexWeight reader)
                      (_assignMinimumVertexWeight reader)) K) ∧
  (∀ what reader' K', read sort input reader K = Thrown what reader' K' → K' = K).
Proof.
  intros values height. unfold read. fold values height. split_and!.
  - by intros ->.
  - intros Hne Hmod. destruct values as [|v values']; [done|].
    apply Nat.eqb_neq in Hmod. by rewrite Hmod.
  - intros what reader' K'. destruct values as [|v values']; [done|].
    destruct (negb _); [by intros [= _ _ ->]|].
    by destruct (foldl _ _ _).
Qed.

End ReaderFacts.

Lemma read_malformed_witness :
  extract_values signed_ragged_rows Idle ≠ [] ∧
  length (extract_values signed_ragged_rows Idle) mod count_lines signed_ragged_rows false
    ≠ 0 ∧
  read id signed_ragged_rows reader0 [] =
    Thrown format_error (mkReader 2 2 false false) [].
Proof.
  assert (extract_values signed_ragged_rows Idle ≠ []) as Hne
    by (vm_compute; discriminate).
  assert (length (extract_values signed_ragged_rows Idle)
            mod count_lines signed_ragged_rows false ≠ 0)
    as Hmod by (vm_compute; discriminate).
  split_and!; [exact Hne|exact Hmod|].
  exact (proj1 (proj2 (read_malformed id signed_ragged_rows reader0 [])) Hne Hmod).
Defined.

(** Empty input is not reported as an error. *)
Lemma read_empty_counterexample :
  read id "" reader0 [] = Returned reader0 [] ∧
  ¬ ∃ what reader' K', read id "" reader0 [] = Thrown what reader' K'.
Proof. split; [reflexivity|]. intros (what & reader' & K' & Heq). discriminate Heq. Qed.

(** Rows of different lengths whose total count is a multiple of the number
    of lines are read as a matrix. *)
Lemma read_uneven_rows_accepted :
  ∃ K, read id ("1 2 3" ++ newline ++ "4" ++ newline) reader0 [] =
         Returned (mkReader 2 2 false false) K ∧ K ≠ [].
Proof. eexists. split; [vm_compute; reflexivity|discriminate]. Qed.

(** A matrix with a negative weight is read as a matrix, and rows that
    differ in length are rejected also when they hold a negative weight. *)
Lemma read_signed_rows :
  extract_values signed_rows Idle = [1; -2; 3; 4]%Z ∧
  (∃ K, read id signed_rows reader0 [] = Returned (mkReader 2 2 false false) K ∧
        length K = 8) ∧
  extract_values signed_ragged_rows Idle = [-1; 2; 3; 4; 5]%Z ∧
  extract_values ("+1 2" ++ newline) Idle = [1; 2]%Z ∧
  extract_values ("1 2147483648" ++ newline) Idle = [1%Z] ∧
  extract_values ("1 -2147483648" ++ newline) Idle = [1; -2147483648]%Z.
Proof.
  split_and!; try (vm_compute; reflexivity).
  eexists. split; vm_compute; reflexivity.
Qed.

(** ** Further properties of persistence diagrams *)

Section DiagramCleanup.
Context {T : Type} `{DataType T}.

(** [removeDiagonal()] keeps exactly the points with x != y, in their
    original relative order; no point of the result lies on the diagonal,
    and the dimension is unchanged. *)
Theorem removeDiagonal_spec (D : PersistenceDiagram T) :
  _points (removeDiagonal D) = filter (λ p, dt_eqb (x p) (y p) = false) (_points D) ∧
  (∀ p, p ∈ _points (removeDiagonal D) → dt_eqb (x p) (y p) = false) ∧
  _points (removeDiagonal D) `sublist_of` _points D ∧
  dimension (removeDiagonal D) = dimension D.
Proof.
  assert (_points (removeDiagonal D) =
          filter (λ p, dt_eqb (x p) (y p) = false) (_points D)) as Heq.
  { apply erase_remove_if_filter. }
  split_and!; [done| | |done].
  - intros p. rewrite Heq, list_elem_of_filter. tauto.
  - rewrite Heq. apply sublist_filter.
Qed.

Lemma filter_comm (P Q : Point T → Prop) `{∀ p, Decision (P p)} `{∀ p, Decision (Q p)}
    (l : list (Point T)) :
  filter P (filter Q l) = filter Q (filter P l).
Proof.
  induction l as [|p l IH]; [done|].
  rewrite !filter_cons.
  destruct (decide (Q p)), (decide (P p)); rewrite ?filter_cons;
    repeat case_decide; try done; by rewrite IH.
Qed.

Lemma filter_idemp (P : Point T → Prop) `{∀ p, Decision (P p)} (l : list (Point T)) :
  filter P (filter P l) = filter P l.
Proof.
  induction l as [|p l IH]; [done|].
  rewrite filter_cons. destruct (decide (P p)); [|done].
  rewrite filter_cons, decide_True by done. by rewrite IH.
Qed.

(** The two clean-up operations can be applied in either order. *)
Theorem removeDiagonal_removeUnpaired_comm (D : PersistenceDiagram T) :
  removeDiagonal (removeUnpaired D) = removeUnpaired (removeDiagonal D).
Proof.
  unfold removeDiagonal, removeUnpaired. simpl. f_equal.
  rewrite !erase_remove_if_filter. apply filter_comm.
Qed.

(** Each clean-up operation is idempotent. *)
Theorem cleanup_idempotent (D : PersistenceDiagram T) :
  removeDiagonal (removeDiagonal D) = removeDiagonal D ∧
  removeUnpaired (removeUnpaired D) = removeUnpaired D.
Proof.
  unfold removeDiagonal, removeUnpaired. simpl.
  split; f_equal; rewrite !erase_remove_if_filter; apply filter_idemp.
Qed.

(** The Betti number of a merged diagram is the sum of the Betti numbers. *)
Theorem betti_merge (D E : PersistenceDiagram T) :
  betti (merge D E) = betti D + betti E.
Proof.
  unfold betti, merge. simpl. rewrite !count_if_filter, filter_app. apply length_app.
Qed.

(** The points of a diagram are its unpaired points, counted by [betti()],
    and the points [removeUnpaired()] keeps. *)
Theorem size_removeUnpaired_betti (D : PersistenceDiagram T) :
  size D = size (removeUnpaired D) + betti D.
Proof.
  unfold size, betti, removeUnpaired. simpl.
  rewrite count_if_filter, erase_remove_if_filter.
  induction (_points D) as [|p l IH]; [done|].
  rewrite !filter_cons. destruct (isUnpaired p) eqn:Hp.
  - rewrite decide_False, decide_True by congruence. simpl. lia.
  - rewrite decide_True, decide_False by congruence. simpl. lia.
Qed.

(** [add( x )] adds an unpaired point: the Betti number grows by one, and
    [removeUnpaired()] removes the point again; [add( x, y )] with a death
    value other than the sentinel leaves the Betti number as it is.  The
    sentinel has to be equal to itself. *)
Theorem add_betti (D : PersistenceDiagram T) (a b : T) :
  dt_eqb sentinel sentinel = true →
  betti (add1 a D) = S (betti D) ∧
  removeUnpaired (add1 a D) = removeUnpaired D ∧
  (dt_eqb b sentinel = false → betti (add a b D) = betti D).
Proof.
  intros Hrefl.
  assert (isUnpaired (Point_unpaired a) = true) as Hun.
  { rewrite isUnpaired_sentinel. exact Hrefl. }
  split_and!.
  - unfold betti, add1. simpl. rewrite !count_if_filter, filter_app, length_app.
    rewrite filter_cons, decide_True by done. simpl. lia.
  - unfold removeUnpaired, add1. simpl. f_equal.
    rewrite !erase_remove_if_filter, filter_app.
    rewrite filter_cons, decide_False by congruence. by rewrite filter_nil, app_nil_r.
  - intros Hb. unfold betti, add. simpl.
    rewrite !count_if_filter, filter_app, length_app.
    rewrite filter_cons, decide_False; [simpl; lia|].
    rewrite isUnpaired_sentinel. unfold y. simpl. congruence.
Qed.

(** Insertion of a range and erasure of the same range undo each other;
    inserting at [end()] is [merge]. *)
Theorem insert_erase_range (D E : PersistenceDiagram T) (position : nat)
    (range : list (Point T)) (p : Point T) :
  position ≤ size D →
  size (insert_range position range D) = size D + length range ∧
  erase_range position (position + length range) (insert_range position range D)
    = (D, position) ∧
  erase position (insert_range position [p] D) = (D, position) ∧
  insert_range (size D) (_points E) D = merge D E.
Proof.
  intros Hpos. unfold size in *. destruct D as [dim pts]. simpl in *.
  unfold insert_range, erase_range, erase, merge. simpl.
  assert (length (take position pts) = position) as Hlen by (rewrite length_take; lia).
  pose proof (take_drop position pts) as Hpts.
  set (l1 := take position pts) in *. set (l2 := drop position pts) in *.
  split_and!.
  - rewrite <-Hpts, !length_app. lia.
  - f_equal. f_equal. rewrite take_app_length' by done.
    rewrite app_assoc, drop_app_length' by (rewrite length_app; lia). done.
  - f_equal. f_equal. rewrite <-Hlen at 1. simpl. by rewrite delete_middle.
  - subst l1 l2. by rewrite firstn_all, drop_all, app_nil_r.
Qed.

End DiagramCleanup.

Lemma add_betti_witness :
  dt_eqb (sentinel (T:=Z)) sentinel = true ∧
  betti (add1 3%Z (emptyDiagram (T:=Z))) = S (betti (emptyDiagram (T:=Z))) ∧
  removeUnpaired (add1 3%Z emptyDiagram) = removeUnpaired (emptyDiagram (T:=Z)) ∧
  (dt_eqb 5%Z sentinel = false →
   betti (add 3%Z 5%Z (emptyDiagram (T:=Z))) = betti (emptyDiagram (T:=Z))).
Proof.
  assert (dt_eqb (sentinel (T:=Z)) sentinel = true) as Hrefl by reflexivity.
  split; [exact Hrefl|]. exact (add_betti emptyDiagram 3%Z 5%Z Hrefl).
Defined.

Lemma insert_erase_range_witness :
  1 ≤ size diagram0 ∧
  erase_range 1 (1 + 2) (insert_range 1 [mkPoint 0%Z 1%Z; mkPoint 0%Z 2%Z] diagram0)
    = (diagram0, 1).
Proof.
  assert (1 ≤ size diagram0) as Hpos by (vm_compute; lia).
  split; [exact Hpos|].
  exact (proj1 (proj2 (insert_erase_range diagram0 diagram0 1
                         [mkPoint 0%Z 1%Z; mkPoint 0%Z 2%Z] (mkPoint 0%Z 0%Z) Hpos))).
Defined.

Section PointOrder.
Context {T : Type} `{LawfulDataType T}.

Lemma Point_eq_eq (p q : Point T) : Point_eq p q = true ↔ p = q.
Proof.
  unfold Point_eq. rewrite andb_true_iff, !dt_eqb_eq.
  destruct p, q; simpl. split; [by intros [-> ->]|by intros [= -> ->]].
Qed.

#[local] Instance Point_eq_decision : EqDecision (Point T).
Proof.
  intros p q. destruct (Point_eq p q) eqn:E.
  - left. by apply Point_eq_eq.
  - right. intros Heq. apply Point_eq_eq in Heq. congruence.
Defined.

Lemma dt_eqb_neq (a b : T) : dt_eqb a b = false ↔ a ≠ b.
Proof. rewrite <-dt_eqb_eq. by destruct (dt_eqb a b). Qed.

Lemma Point_lt_irrefl (p : Point T) : Point_lt p p = false.
Proof.
  unfold Point_lt. rewrite (proj2 (dt_eqb_eq _ _) eq_refl). apply dt_ltb_irrefl.
Qed.

Lemma Point_lt_trans (p q r : Point T) :
  Point_lt p q = true → Point_lt q r = true → Point_lt p r = true.
Proof.
  unfold Point_lt. destruct p as [px py], q as [qx qy], r as [rx ry]. simpl.
  destruct (dt_eqb px qx) eqn:Hpq; destruct (dt_eqb qx rx) eqn:Hqr; intros H1 H2.
  - apply dt_eqb_eq in Hpq, Hqr. subst.
    rewrite (proj2 (dt_eqb_eq _ _) eq_refl). by eapply dt_ltb_trans.
  - apply dt_eqb_eq in Hpq. subst. by rewrite Hqr.
  - apply dt_eqb_eq in Hqr. subst. by rewrite Hpq.
  - destruct (dt_eqb px rx) eqn:Hpr.
    + apply dt_eqb_eq in Hpr as ->.
      pose proof (dt_ltb_trans _ _ _ H1 H2) as Habs.
      by rewrite dt_ltb_irrefl in Habs.
    + by eapply dt_ltb_trans.
Qed.

Lemma Point_lt_total (p q : Point T) :
  Point_lt p q = false → Point_lt q p = false → p = q.
Proof.
  unfold Point_lt. destruct p as [px py], q as [qx qy]. simpl.
  destruct (dt_eqb px qx) eqn:Hpq.
  - apply dt_eqb_eq in Hpq as ->. rewrite (proj2 (dt_eqb_eq _ _) eq_refl).
    intros H1 H2. by rewrite (dt_ltb_total _ _ H1 H2).
  - apply dt_eqb_neq in Hpq.
    assert (dt_eqb qx px = false) as -> by (apply dt_eqb_neq; congruence).
    intros H1 H2. by pose proof (dt_ltb_total _ _ H1 H2).
Qed.

Lemma vector_eq_eq (v w : list (Point T)) : vector_eq v w = true ↔ v = w.
Proof.
  revert w. induction v as [|p v IH]; intros [|q w]; simpl; try done.
  rewrite andb_true_iff, Point_eq_eq, IH. split; [by intros [-> ->]|by intros [= -> ->]].
Qed.

Lemma PersistenceDiagram_eq_eq (D E : PersistenceDiagram T) :
  PersistenceDiagram_eq D E = true ↔ _points D = _points E.
Proof. apply vector_eq_eq. Qed.

(** On a lawful data type [Point::operator==] is equality of both
    coordinates, and [Point::operator<] is the lexicographic order: strict,
    transitive, and two points neither of which is less than the other are
    equal. *)
Theorem Point_order (p q r : Point T) :
  (Point_eq p q = true ↔ p = q) ∧
  Point_lt p p = false ∧
  (Point_lt p q = true → Point_lt q r = true → Point_lt p r = true) ∧
  (Point_lt p q = false → Point_lt q p = false → p = q) ∧
  (Point_lt p q = true ↔
   dt_ltb (x p) (x q) = true ∨ (x p = x q ∧ dt_ltb (y p) (y q) = true)).
Proof.
  split_and!.
  - apply Point_eq_eq.
  - apply Point_lt_irrefl.
  - apply Point_lt_trans.
  - apply Point_lt_total.
  - unfold Point_lt, x, y. destruct (dt_eqb (_x p) (_x q)) eqn:Hpq.
    + apply dt_eqb_eq in Hpq. rewrite Hpq, dt_ltb_irrefl. split; [by right|].
      by intros [?|[_ ?]].
    + apply dt_eqb_neq in Hpq. split; [by left|]. by intros [?|[? _]].
Qed.

Lemma elem_of_set_insert (p q : Point T) (s : list (Point T)) :
  q ∈ set_insert p s ↔ q = p ∨ q ∈ s.
Proof.
  induction s as [|r s IH]; simpl.
  { rewrite list_elem_of_singleton, elem_of_nil. tauto. }
  destruct (Point_lt p r) eqn:Hpr; [by rewrite !elem_of_cons|].
  destruct (Point_lt r p) eqn:Hrp.
  - rewrite !elem_of_cons, IH. tauto.
  - rewrite (Point_lt_total _ _ Hpr Hrp), !elem_of_cons. tauto.
Qed.

Lemma set_insert_sorted (p : Point T) (s : list (Point T)) :
  point_sorted s → point_sorted (set_insert p s).
Proof.
  unfold point_sorted. induction s as [|r s IH]; intros Hs; simpl.
  { repeat constructor. }
  apply StronglySorted_inv in Hs as [Hs Hr].
  destruct (Point_lt p r) eqn:Hpr.
  - constructor; [by constructor|]. constructor; [done|].
    eapply Forall_impl; [done|]. intros q Hq. simpl in *. by eapply Point_lt_trans.
  - destruct (Point_lt r p) eqn:Hrp; [|by constructor].
    constructor; [by apply IH|].
    apply Forall_forall. intros q [->|Hq]%elem_of_set_insert; [done|].
    rewrite Forall_forall in Hr. by apply Hr.
Qed.

Lemma set_of_range_spec (v : list (Point T)) :
  point_sorted (set_of_range v) ∧ ∀ q, q ∈ set_of_range v ↔ q ∈ v.
Proof.
  unfold set_of_range.
  assert (∀ s, point_sorted s →
            point_sorted (foldl (λ s p, set_insert p s) s v) ∧
            ∀ q, q ∈ foldl (λ s p, set_insert p s) s v ↔ q ∈ s ∨ q ∈ v) as Hgen.
  { induction v as [|p v IH]; intros s Hs; simpl.
    { split; [done|]. intros q. rewrite elem_of_nil. tauto. }
    destruct (IH (set_insert p s)) as [Hsorted Hmem]; [by apply set_insert_sorted|].
    split; [done|]. intros q. rewrite Hmem, elem_of_set_insert, elem_of_cons. tauto. }
  destruct (Hgen []) as [Hsorted Hmem]; [constructor|].
  split; [done|]. intros q. rewrite Hmem, elem_of_nil. tauto.
Qed.

Lemma point_sorted_NoDup (s : list (Point T)) : point_sorted s → NoDup s.
Proof.
  induction 1 as [|p s Hs IH Hp]; constructor; [|done].
  intros Hin. rewrite Forall_forall in Hp. apply Hp in Hin.
  by rewrite Point_lt_irrefl in Hin.
Qed.

Lemma point_sorted_ext (s t : list (Point T)) :
  point_sorted s → point_sorted t → (∀ q, q ∈ s ↔ q ∈ t) → s = t.
Proof.
  intros Hs. revert t. induction Hs as [|p s Hs IH Hp]; intros t Ht Hext.
  { destruct t as [|q t]; [done|]. specialize (Hext q).
    rewrite elem_of_nil, elem_of_cons in Hext. exfalso. tauto. }
  destruct Ht as [|q t Ht Hq].
  { specialize (Hext p). rewrite elem_of_nil, elem_of_cons in Hext. exfalso. tauto. }
  rewrite Forall_forall in Hp. rewrite Forall_forall in Hq.
  assert (p = q) as ->.
  { destruct (decide (p = q)) as [|Hne]; [done|].
    assert (p ∈ t) as Hpt.
    { pose proof (proj1 (Hext p) ltac:(by left)) as [?|?]%elem_of_cons; done. }
    assert (q ∈ s) as Hqs.
    { pose proof (proj2 (Hext q) ltac:(by left)) as [?|?]%elem_of_cons; [congruence|done]. }
    apply Hq in Hpt. apply Hp in Hqs.
    pose proof (Point_lt_trans _ _ _ Hpt Hqs) as Habs.
    by rewrite Point_lt_irrefl in Habs. }
  f_equal. apply IH; [done|]. intros r. specialize (Hext r).
  rewrite !elem_of_cons in Hext.
  assert (q ∉ s) as Hqs.
  { intros Hin. apply Hp in Hin. by rewrite Point_lt_irrefl in Hin. }
  assert (q ∉ t) as Hqt.
  { intros Hin. apply Hq in Hin. by rewrite Point_lt_irrefl in Hin. }
  destruct (decide (r = q)) as [->|]; tauto.
Qed.

(** [removeDuplicates()] keeps every point of the diagram exactly once, in
    the order of [Point::operator<], and leaves the dimension unchanged. *)
Theorem removeDuplicates_spec (D : PersistenceDiagram T) :
  (∀ p, p ∈ _points (removeDuplicates D) ↔ p ∈ _points D) ∧
  NoDup (_points (removeDuplicates D)) ∧
  StronglySorted (λ p q, Point_lt p q = true) (_points (removeDuplicates D)) ∧
  size (removeDuplicates D) ≤ size D ∧
  dimension (removeDuplicates D) = dimension D.
Proof.
  destruct (set_of_range_spec (_points D)) as [Hsorted Hmem].
  split_and!; [done|by apply point_sorted_NoDup|done| |done].
  unfold size. simpl. apply submseteq_length, NoDup_submseteq.
  - by apply point_sorted_NoDup.
  - intros p. by rewrite Hmem.
Qed.

(** [removeDuplicates()] makes the points canonical: two diagrams compare
    equal afterwards exactly when they hold the same points, whatever their
    order and multiplicity was; in particular it is idempotent. *)
Theorem removeDuplicates_canonical (D E : PersistenceDiagram T) :
  (PersistenceDiagram_eq (removeDuplicates D) (removeDuplicates E) = true ↔
   ∀ p, p ∈ _points D ↔ p ∈ _points E) ∧
  removeDuplicates (removeDuplicates D) = removeDuplicates D.
Proof.
  destruct (set_of_range_spec (_points D)) as [HsD HmD].
  destruct (set_of_range_spec (_points E)) as [HsE HmE].
  split.
  - rewrite PersistenceDiagram_eq_eq. simpl. split.
    + intros Heq p. by rewrite <-HmD, <-HmE, Heq.
    + intros Hext. apply point_sorted_ext; [done..|].
      intros q. by rewrite HmD, HmE.
  - unfold removeDuplicates. simpl. f_equal.
    destruct (set_of_range_spec (set_of_range (_points D))) as [Hs Hm].
    by apply point_sorted_ext.
Qed.

(** On a lawful data type [operator==] of two diagrams holds exactly when
    they store the same points in the same order, and [operator!=] exactly
    when they do not; the dimension is not compared.  Equal diagrams have
    the same size and the same Betti number. *)
Theorem PersistenceDiagram_eq_spec (D E : PersistenceDiagram T) (d : nat) :
  (PersistenceDiagram_eq D E = true ↔ _points D = _points E) ∧
  (PersistenceDiagram_ne D E = true ↔ _points D ≠ _points E) ∧
  PersistenceDiagram_eq (setDimension d D) D = true ∧
  (PersistenceDiagram_eq D E = true → size D = size E ∧ betti D = betti E).
Proof.
  pose proof (vector_eq_eq (_points D) (_points E)) as Heq.
  split_and!.
  - exact Heq.
  - unfold PersistenceDiagram_ne, PersistenceDiagram_eq.
    rewrite negb_true_iff, <-not_true_iff_false. by rewrite Heq.
  - by apply vector_eq_eq.
  - intros Hpts%Heq. unfold size, betti. by rewrite Hpts.
Qed.

End PointOrder.

Lemma Point_order_witness :
  (Point_eq (mkPoint 1%Z 3%Z) (mkPoint 2%Z 2%Z) = true ↔ mkPoint 1%Z 3%Z = mkPoint 2%Z 2%Z) ∧
  Point_lt (mkPoint 1%Z 3%Z) (mkPoint 1%Z 3%Z) = false ∧
  Point_lt (mkPoint 1%Z 3%Z) (Point_unpaired 2%Z) = true.
Proof.
  destruct (Point_order (mkPoint 1%Z 3%Z) (mkPoint 2%Z 2%Z) (Point_unpaired 2%Z))
    as (Heq & Hirr & Htrans & _).
  split_and!; [exact Heq|exact Hirr|].
  apply Htrans; reflexivity.
Defined.

Lemma removeDuplicates_spec_witness :
  NoDup (_points (removeDuplicates diagram0)) ∧
  size (removeDuplicates diagram0) ≤ size diagram0.
Proof.
  destruct (removeDuplicates_spec diagram0) as (_ & Hnodup & _ & Hsize & _).
  split; [exact Hnodup|exact Hsize].
Defined.

Lemma removeDuplicates_canonical_witness :
  PersistenceDiagram_eq (removeDuplicates diagram0)
    (removeDuplicates (merge diagram0 diagram0)) = true.
Proof.
  apply (proj1 (removeDuplicates_canonical diagram0 (merge diagram0 diagram0))).
  intros p.
  change (_points (merge diagram0 diagram0)) with (_points diagram0 ++ _points diagram0).
  rewrite elem_of_app. tauto.
Defined.

Lemma PersistenceDiagram_eq_spec_witness :
  PersistenceDiagram_eq (setDimension 2 diagram0) diagram0 = true ∧
  size (setDimension 2 diagram0) = size diagram0.
Proof.
  destruct (PersistenceDiagram_eq_spec (setDimension 2 diagram0) diagram0 2)
    as (_ & _ & _ & Hsize).
  split; [reflexivity|]. apply Hsize. reflexivity.
Defined.

(** ** Further properties of the reader *)

Section ReaderOutcome.
Context `{SimplexTypes}.
Variable sort : list Simplex → list Simplex.






(** The reader throws exactly when values were read and their number is not
    a multiple of the number of lines.  When it returns after reading
    values, its height is the number of lines (at least one), its width is
    at least one, and height times width is the number of values.  The two
    flags are never changed. *)
Theorem read_outcome (input : string) (reader : BipartiteAdjacencyMatrixReader)
    (K : list Simplex) :
  let values := extract_values input Idle in
  let height := count_lines input false in
  ((∃ what reader' K', read sort input reader K = Thrown what reader' K') ↔
   values ≠ [] ∧ length values mod height ≠ 0) ∧
  (∀ reader' K', read sort input reader K = Returned reader' K' →
     values ≠ [] →
     _height reader' = height ∧ 1 ≤ _height reader' ∧ 1 ≤ _width reader' ∧
     _height reader' * _width reader' = length values) ∧
  (∀ reader' K',
     read sort input reader K = Returned reader' K' ∨
     (∃ what, read sort input reader K = Thrown what reader' K') →
     _assignMinimumAbsoluteVertexWeight reader' = _assignMinimumAbsoluteVertexWeight reader ∧
     _assignMinimumVertexWeight reader' = _assignMinimumVertexWeight reader).
Proof.
  intros values height.
  pose proof (extract_values_lines input) as Hlines.
  unfold read. subst values height.
  remember (count_lines input false) as height eqn:Hh.
  remember (extract_values input Idle) as values eqn:Hv.
  destruct values as [|v values'].
  { split_and!.
    - split; [by intros (? & ? & ? & ?)|by intros [? _]].
    - done.
    - intros reader' K' [[= <- _]|[what [=]]]. done. }
  specialize (Hlines ltac:(done)).
  destruct (length (v :: values') mod height =? 0) eqn:Hmod; simpl.
  - apply Nat.eqb_eq in Hmod.
    destruct (foldl _ _ _) as [minWeight simplices]. split_and!.
    + split; [by intros (? & ? & ? & ?)|]. intros [_ Hne]. exfalso. apply Hne. exact Hmod.
    + intros reader' K' [= <- _] _. simpl.
      pose proof (Nat.div_mod_eq (length (v :: values')) height) as Hdiv.
      rewrite Hmod, Nat.add_0_r in Hdiv.
      change (length (v :: values')) with (S (length values')) in *.
      set (q := S (length values') / height) in *.
      split_and!; [done|lia|nia|lia].
    + intros reader' K' [[= <- _]|[what [=]]]. done.
  - apply Nat.eqb_neq in Hmod. split_and!.
    + split; [done|]. intros _. eauto.
    + intros reader' K' [=].
    + intros reader' K' [[=]|[what [= _ <- _]]]. done.
Qed.

Lemma read_ext (input input' : string) reader K :
  count_lines input false = count_lines input' false →
  extract_values input Idle = extract_values input' Idle →
  read sort input reader K = read sort input' reader K.
Proof. intros Hc Hv. unfold read. by rewrite Hc, Hv. Qed.

Lemma extract_values_final_newline (a : string) (c : ascii) field :
  extract_values ((a ++ String c "") ++ newline) field =
    extract_values (a ++ String c "") field.
Proof.
  revert field. induction a as [|d a IH]; intros field.
  - rewrite string_app_nil_l, string_app_cons, string_app_nil_l. simpl.
    destruct field as [|negative|negative magnitude], (digit_of c) as [k|];
      simpl; repeat case_match; done.
  - rewrite !string_app_cons. simpl.
    destruct field as [|negative|negative magnitude], (digit_of d) as [k|];
      try done; try apply IH.
    + destruct (is_space d); [apply IH|]. destruct (sign_of d); [apply IH|done].
    + destruct (field_value _ _); [|done]. f_equal.
      destruct (is_space d); [apply IH|]. destruct (sign_of d); [apply IH|done].
Qed.

Lemma count_lines_final_newline (a : string) (c : ascii) pending :
  is_newline c = false →
  count_lines ((a ++ String c "") ++ newline) pending =
    count_lines (a ++ String c "") pending.
Proof.
  intros Hc. revert pending. induction a as [|d a IH]; intros pending.
  - rewrite string_app_nil_l, string_app_cons, string_app_nil_l. simpl. by rewrite Hc.
  - rewrite !string_app_cons. simpl. by rewrite !IH.
Qed.

(** A newline after the last line makes no difference: an input whose last
    character does not end a line is read exactly as the same input followed
    by a newline. *)
Theorem read_final_newline (a : string) (c : ascii)
    (reader : BipartiteAdjacencyMatrixReader) (K : list Simplex) :
  is_newline c = false →
  read sort ((a ++ String c "") ++ newline) reader K =
    read sort (a ++ String c "") reader K.
Proof.
  intros Hc. apply read_ext.
  - by apply count_lines_final_newline.
  - apply extract_values_final_newline.
Qed.

Lemma extract_values_blank_line (a b : string) field :
  extract_values ((a ++ newline) ++ newline ++ b) field =
    extract_values ((a ++ newline) ++ b) field.
Proof.
  revert field. induction a as [|d a IH]; intros field.
  - rewrite string_app_nil_l. unfold newline. rewrite !string_app_cons, !string_app_nil_l.
    simpl. destruct field as [|negative|negative magnitude]; try done.
  - rewrite !string_app_cons. simpl.
    destruct field as [|negative|negative magnitude], (digit_of d) as [k|];
      try done; try apply IH.
    + destruct (is_space d); [apply IH|]. destruct (sign_of d); [apply IH|done].
    + destruct (field_value _ _); [|done]. f_equal.
      destruct (is_space d); [apply IH|]. destruct (sign_of d); [apply IH|done].
Qed.

Lemma count_lines_blank_line (a b : string) pending :
  count_lines ((a ++ newline) ++ newline ++ b) pending =
    S (count_lines ((a ++ newline) ++ b) pending).
Proof.
  revert pending. induction a as [|d a IH]; intros pending.
  - rewrite string_app_nil_l. unfold newline. rewrite !string_app_cons, !string_app_nil_l.
    reflexivity.
  - rewrite !string_app_cons. simpl. destruct (is_newline d); by rewrite IH.
Qed.

(** An empty line counts as a row.  A newline added at the start of the
    input or after a newline leaves the values as they are and raises the
    number of lines by one; so the reader then throws unless the number of
    values is also a multiple of the new number of lines. *)
Theorem read_blank_line (a b : string)
    (reader : BipartiteAdjacencyMatrixReader) (K : list Simplex) :
  let values := extract_values (a ++ b) Idle in
  let height := S (count_lines (a ++ b) false) in
  a = "" ∨ (∃ a', a = (a' ++ newline)%string) →
  extract_values (a ++ newline ++ b) Idle = values ∧
  count_lines (a ++ newline ++ b) false = height ∧
  (values ≠ [] → length values mod height ≠ 0 →
   read sort (a ++ newline ++ b) reader K =
     Thrown format_error
       (mkReader height (length values / height)
          (_assignMinimumAbsoluteVertexWeight reader) (_assignMinimumVertexWeight reader))
       K).
Proof.
  intros values height Ha.
  assert (extract_values (a ++ newline ++ b) Idle = values ∧
          count_lines (a ++ newline ++ b) false = height) as [Hv Hc].
  { subst values height. destruct Ha as [->|[a' ->]].
    - rewrite !string_app_nil_l. done.
    - by rewrite extract_values_blank_line, count_lines_blank_line. }
  split_and!; [done|done|]. intros Hne Hmod.
  unfold read. rewrite Hv, Hc.
  destruct values as [|v values'] eqn:Hvalues; [done|].
  apply Nat.eqb_neq in Hmod. rewrite Hmod. reflexivity.
Qed.

End ReaderOutcome.


Lemma read_final_newline_witness :
  is_newline "4" = false ∧
  read id ((("1 2" ++ newline ++ "3 ") ++ "4") ++ newline) reader0 [] =
    read id (("1 2" ++ newline ++ "3 ") ++ "4") reader0 [].
Proof.
  assert (is_newline "4" = false) as Hc by reflexivity.
  split; [exact Hc|].
  exact (read_final_newline id ("1 2" ++ newline ++ "3 ") "4" reader0 [] Hc).
Defined.

Lemma read_blank_line_witness :
  read id (("1 -2" ++ newline) ++ newline ++ "3 4" ++ newline) reader0 [] =
    Thrown format_error (mkReader 3 1 false false) [].
Proof.
  destruct (read_blank_line id ("1 -2" ++ newline) ("3 4" ++ newline) reader0 [])
    as (_ & _ & Hthrow).
  { right. exists "1 -2". reflexivity. }
  rewrite Hthrow by (vm_compute; discriminate). reflexivity.
Defined.

Section ReaderSimplices.
Context `{SimplexTypes}.
Variable sort : list Simplex → list Simplex.

Lemma bind_singleton_fmap {A B} (f : A → B) (l : list A) :
  (a ← l; [f a]) = f <$> l.
Proof. induction l as [|a l IH]; [done|]. by rewrite bind_cons, IH. Qed.

Lemma matrix_positions_S h w r1 r2 :
  matrix_positions (mkReader (S h) w r1 r2) =
  matrix_positions (mkReader h w r1 r2) ++ ((λ x, (h, x)) <$> seq 0 w).
Proof.
  unfold matrix_positions. simpl _height. simpl _width.
  rewrite seq_S, bind_app, bind_singleton. simpl. by rewrite bind_singleton_fmap.
Qed.

Lemma matrix_positions_length reader :
  length (matrix_positions reader) = _height reader * _width reader.
Proof.
  destruct reader as [h w r1 r2]. simpl. induction h as [|h IH]; [done|].
  rewrite matrix_positions_S, length_app, IH, length_fmap, length_seq. lia.
Qed.

Lemma matrix_positions_lookup reader y x :
  y < _height reader → x < _width reader →
  matrix_positions reader !! (_width reader * y + x) = Some (y, x).
Proof.
  destruct reader as [h w r1 r2]. simpl. intros Hy Hx.
  induction h as [|h IH]; [lia|].
  rewrite matrix_positions_S.
  pose proof (matrix_positions_length (mkReader h w r1 r2)) as Hlen. simpl in Hlen.
  destruct (decide (y = h)) as [->|Hne].
  - rewrite lookup_app_r by (rewrite Hlen; lia). rewrite Hlen.
    replace (w * h + x - h * w) with x by lia.
    rewrite list_lookup_fmap, lookup_seq_lt by done. done.
  - rewrite lookup_app_l by (rewrite Hlen; nia). apply IH. lia.
Qed.


Lemma VertexType_fits n : fits_VertexType n → VertexType n = n.
Proof.
  unfold fits_VertexType, VertexType. intros Hn.
  rewrite Z.mod_small by lia. apply Nat2Z.id.
Qed.

Lemma fits_VertexType_le n m : n ≤ m → fits_VertexType m → fits_VertexType n.
Proof. unfold fits_VertexType. lia. Qed.

Lemma edges_fold reader values ps m s :
  foldl (edges_step reader values) (m, s) ps =
    (foldl (edge_weights reader values) m ps, s ++ (edge_of reader values <$> ps)).
Proof.
  revert m s. induction ps as [|[y x] ps IH]; intros m s; cbn [foldl fmap list_fmap].
  { by rewrite app_nil_r. }
  change (edges_step reader values (m, s) (y, x))
    with (edge_weights reader values m (y, x), s ++ [edge_of reader values (y, x)]).
  rewrite IH. by rewrite <-app_assoc.
Qed.

Lemma vertices_fold reader m md s (indices : list nat) :
  foldl (vertex_step reader m md) s indices =
    s ++ ((λ i, mkSimplex [VertexType i] (vertex_weight reader m md i)) <$> indices).
Proof.
  revert s. induction indices as [|i indices IH]; intros s; cbn [foldl fmap list_fmap].
  { by rewrite app_nil_r. }
  change (vertex_step reader m md s i)
    with (s ++ [mkSimplex [VertexType i] (vertex_weight reader m md i)]).
  rewrite IH. by rewrite <-app_assoc.
Qed.








(** The dimensions the reader sets when the number of values is a multiple
    of the number of lines. *)
Lemma reader_for_dimensions input reader :
  extract_values input Idle ≠ [] →
  length (extract_values input Idle) mod count_lines input false = 0 →
  1 ≤ _height (reader_for input reader) ∧ 1 ≤ _width (reader_for input reader) ∧
  _height (reader_for input reader) * _width (reader_for input reader) =
    length (extract_values input Idle).
Proof.
  intros Hne Hmod. pose proof (extract_values_lines input Hne) as Hlines. simpl.
  pose proof (Nat.div_mod_eq (length (extract_values input Idle))
                (count_lines input false)) as Hdiv.
  rewrite Hmod, Nat.add_0_r in Hdiv.
  destruct (extract_values input Idle) as [|v values']; [done|].
  change (length (v :: values')) with (S (length values')) in *.
  set (q := S (length values') / count_lines input false) in *.
  split_and!; [lia|nia|lia].
Qed.

(** What the reader returns when the number of values is a multiple of the
    number of lines: the edges of all entries, then the vertices. *)
Lemma read_returns input reader K first others :
  extract_values input Idle = first :: others →
  length (extract_values input Idle) mod count_lines input false = 0 →
  read sort input reader K =
    Returned (reader_for input reader)
      (sort ((edge_of (reader_for input reader) (extract_values input Idle)
                <$> matrix_positions (reader_for input reader)) ++
             ((λ i, mkSimplex [VertexType i]
                 (vertex_weight (reader_for input reader)
                    (foldl (edge_weights (reader_for input reader)
                              (extract_values input Idle))
                       ∅ (matrix_positions (reader_for input reader)))
                    (foldl Z.min first others) i))
                <$> seq 0 (_height (reader_for input reader) +
                           _width (reader_for input reader))))).
Proof.
  intros Hv Hmod. unfold read. fold (reader_for input reader).
  rewrite Hv. rewrite Hv in Hmod. rewrite Hmod. cbn [Nat.eqb negb].
  unfold reader_for. rewrite Hv.
  rewrite edges_fold, vertices_fold. reflexivity.
Qed.

(** The casts to [VertexType] of the reader change nothing when the number
    of entries fits the type. *)
Lemma fits_entries h w y x :
  1 ≤ h → 1 ≤ w → fits_VertexType (h * w) → y < h → x < w →
  fits_VertexType (w * y + x) ∧ fits_VertexType y ∧ fits_VertexType (x + h).
Proof.
  intros Hh Hw Hfits Hy Hx.
  split_and!; eapply fits_VertexType_le; try exact Hfits; nia.
Qed.

(** On an input whose number of values is a multiple of its number of lines
    and fits the vertex type, the reader hands
    [height * width + height + width] simplices to the complex: first, in
    row-major order, one edge for every entry of the matrix, joining the
    vertex [y] of its row to the vertex [x + height] of its column and
    weighted by the entry, then one vertex for each of the [height + width]
    indices, in order. *)
Theorem read_simplices (input : string) (reader : BipartiteAdjacencyMatrixReader)
    (K : list Simplex) :
  let values := extract_values input Idle in
  let reader' := reader_for input reader in
  let h := _height reader' in
  let w := _width reader' in
  values ≠ [] →
  length values mod count_lines input false = 0 →
  fits_VertexType (h * w) →
  ∃ simplices,
    read sort input reader K = Returned reader' (sort simplices) ∧
    length simplices = h * w + (h + w) ∧
    (∀ y x, y < h → x < w →
       w * y + x < length values ∧
       simplices !! (w * y + x) = Some (mkSimplex [y; x + h] (values !!! (w * y + x)))) ∧
    (∀ i, i < h + w →
       ∃ weight, simplices !! (h * w + i) = Some (mkSimplex [i] weight)).
Proof.
  intros values reader' h w Hne Hmod Hfits.
  destruct values as [|first others] eqn:Hv; [done|]. subst values.
  pose proof (reader_for_dimensions input reader ltac:(by rewrite Hv)
                ltac:(by rewrite Hv)) as (Hh & Hw & Hhw).
  fold reader' in Hh, Hw, Hhw. fold h w in Hh, Hw, Hhw.
  eexists. split; [apply (read_returns _ _ _ first others); by rewrite ?Hv|].
  fold reader'. rewrite Hv. fold h w.
  pose proof (matrix_positions_length reader') as Hlen. fold h w in Hlen.
  split_and!.
  - rewrite length_app, !length_fmap, length_seq, Hlen. done.
  - intros y x Hy Hx. rewrite Hv in Hhw. split; [nia|].
    destruct (fits_entries h w y x Hh Hw Hfits Hy Hx) as (Fi & Fu & Fv).
    rewrite lookup_app_l by (rewrite length_fmap, Hlen; nia).
    pose proof (matrix_positions_lookup reader' y x Hy Hx) as Hl. fold w in Hl.
    rewrite list_lookup_fmap, Hl. unfold edge_of, entry_weight. cbn [fmap option_fmap option_map fst snd].
    fold h w. by rewrite (VertexType_fits _ Fi), (VertexType_fits _ Fu), (VertexType_fits _ Fv).
  - intros i Hi. eexists.
    rewrite lookup_app_r by (rewrite length_fmap, Hlen; lia).
    rewrite length_fmap, Hlen. replace (h * w + i - h * w) with i by lia.
    rewrite list_lookup_fmap, lookup_seq_lt by done. cbn [fmap option_fmap option_map Nat.add].
    rewrite VertexType_fits by (eapply fits_VertexType_le; [|exact Hfits]; nia). done.
Qed.


End ReaderSimplices.

Lemma read_simplices_witness :
  extract_values weights_2x3 Idle ≠ [] ∧
  length (extract_values weights_2x3 Idle) mod count_lines weights_2x3 false = 0 ∧
  ∃ simplices,
    read id weights_2x3 reader0 [] = Returned (mkReader 2 3 false false) simplices ∧
    length simplices = 11 ∧
    simplices !! 4 = Some (mkSimplex [1; 3] 4).
Proof.
  assert (extract_values weights_2x3 Idle ≠ []) as Hne by (vm_compute; discriminate).
  assert (length (extract_values weights_2x3 Idle) mod count_lines weights_2x3 false = 0)
    as Hmod by (vm_compute; reflexivity).
  split_and!; [exact Hne|exact Hmod|].
  destruct (read_simplices id weights_2x3 reader0 [] Hne Hmod)
    as (simplices & Hread & Hlen & Hedges & _).
  { vm_compute. reflexivity. }
  exists simplices. split_and!; [exact Hread|exact Hlen|].
  apply (Hedges 1 1); vm_compute; lia.
Defined.


(** With [_assignMinimumAbsoluteVertexWeight] set and weights of both signs
    a vertex can weigh more than an edge that contains it. *)
Lemma read_absolute_weight_above_edge :
  ∃ simplices,
    read id mixed_signs (mkReader 0 0 true false) [] =
      Returned (mkReader 1 2 true false) simplices ∧
    simplices !! 0 = Some (mkSimplex [0; 1] (-3)) ∧
    simplices !! 2 = Some (mkSimplex [0] 1).
Proof. eexists. split_and!; vm_compute; reflexivity. Qed.

(** ** Reading back the text output *)

Section OutputRoundTrip.
Context {R : Type} `{Representation R}.

Lemma read_values_uint d v rest :
  read_values (NilEmpty.string_of_uint d ++ String " " rest) (Some v) =
    Nat.of_uint_acc d v :: read_values rest None.
Proof.
  revert v. induction d as [|d IH|d IH|d IH|d IH|d IH|d IH|d IH|d IH|d IH|d IH];
    intros v; [reflexivity|..];
    cbn [NilEmpty.string_of_uint Nat.of_uint_acc]; rewrite string_app_cons;
    cbn [read_values];
    match goal with
    | |- context [digit_of ?c] =>
        let k := eval vm_compute in (digit_of c) in change (digit_of c) with k
    end;
    cbn [default from_option]; rewrite IH, Nat.tail_mul_spec; f_equal; f_equal; unfold id; lia.
Qed.

Lemma read_values_show_index c rest :
  read_values (show_index c ++ String " " rest) None = c :: read_values rest None.
Proof.
  unfold show_index.
  assert (read_values (NilEmpty.string_of_uint (Nat.to_uint c) ++ String " " rest) None =
          read_values (NilEmpty.string_of_uint (Nat.to_uint c) ++ String " " rest) (Some 0))
    as ->.
  { pose proof (DecimalNat.Unsigned.of_to c) as Hc.
    destruct (Nat.to_uint c) as [|d|d|d|d|d|d|d|d|d|d] eqn:Hd; [|reflexivity..].
    cbv in Hc. subst c. discriminate Hd. }
  rewrite read_values_uint. f_equal.
  exact (DecimalNat.Unsigned.of_to c).
Qed.

Lemma read_values_indices (column : list Index) rest :
  read_values (String.concat "" (output_index <$> column) ++ rest) None =
    column ++ read_values rest None.
Proof.
  induction column as [|c column IH]; [done|].
  rewrite fmap_cons, string_concat_cons. unfold output_index at 1.
  rewrite !string_app_assoc, string_app_cons, string_app_nil_l.
  by rewrite read_values_show_index, IH.
Qed.

Lemma read_values_output_line (column : list Index) rest :
  read_values (output_line column ++ rest) None =
    match column with
    | [] => []
    | _ :: _ => column ++ read_values rest None
    end.
Proof.
  unfold output_line. destruct column as [|c column]; [reflexivity|].
  rewrite string_app_assoc, read_values_indices. reflexivity.
Qed.

Lemma single_line_split a a' b b' :
  single_line a = true → single_line a' = true →
  (a ++ newline ++ b)%string = (a' ++ newline ++ b')%string → a = a' ∧ b = b'.
Proof.
  unfold newline.
  revert a'. induction a as [|c a IH]; intros [|c' a'] Ha Ha';
    rewrite ?string_app_nil_l, ?string_app_cons, ?string_app_nil_l.
  - by intros [= ->].
  - intros [= <- _]. discriminate Ha'.
  - intros [= -> _]. discriminate Ha.
  - intros [= -> Heq]. simpl in Ha, Ha'.
    apply andb_true_iff in Ha as [_ Ha]. apply andb_true_iff in Ha' as [_ Ha'].
    destruct (IH a' Ha Ha' Heq) as [-> ->]. done.
Qed.

Lemma output_line_inj (column column' : list Index) rest rest' :
  (output_line column ++ rest)%string = (output_line column' ++ rest')%string →
  column = column' ∧ rest = rest'.
Proof.
  intros Heq. pose proof Heq as Hsplit. unfold output_line in Hsplit.
  rewrite !string_app_assoc in Hsplit.
  apply single_line_split in Hsplit as [Hbody ->];
    [|destruct column; [done|apply single_line_indices]
     |destruct column'; [done|apply single_line_indices]].
  split; [|done].
  apply (f_equal (λ s, read_values (s ++ "") None)) in Hbody.
  destruct column as [|c column], column' as [|c' column'].
  - done.
  - rewrite read_values_indices in Hbody. discriminate Hbody.
  - rewrite read_values_indices in Hbody. discriminate Hbody.
  - rewrite !read_values_indices in Hbody. simpl in Hbody.
    rewrite !app_nil_r in Hbody. done.
Qed.

Lemma output_line_not_empty (column : list Index) rest :
  (output_line column ++ rest)%string ≠ "".
Proof.
  unfold output_line. destruct column as [|c column]; [discriminate|].
  rewrite fmap_cons, string_concat_cons. unfold output_index at 1.
  rewrite !string_app_assoc.
  destruct (show_index c); rewrite ?string_app_nil_l, ?string_app_cons; discriminate.
Qed.

Lemma output_lines_inj (columns columns' : list (list Index)) :
  String.concat "" (output_line <$> columns) = String.concat "" (output_line <$> columns') →
  columns = columns'.
Proof.
  revert columns'. induction columns as [|c columns IH]; intros [|c' columns'].
  - done.
  - rewrite fmap_cons, string_concat_cons. intros Heq. symmetry in Heq.
    by apply output_line_not_empty in Heq.
  - rewrite fmap_cons, string_concat_cons. intros Heq.
    by apply output_line_not_empty in Heq.
  - rewrite !fmap_cons, !string_concat_cons.
    intros [-> Heq]%output_line_inj. by rewrite (IH _ Heq).
Qed.

Lemma string_app_inv_head (o a b : string) : (o ++ a)%string = (o ++ b)%string → a = b.
Proof. induction o as [|c o IH]; [done|]. rewrite !string_app_cons. intros [= Heq]. auto. Qed.

(** The text determines the matrix: when [operator<<] writes the same text
    for two matrices onto the same stream, they have the same number of
    columns and the same indices in every column.  The flag of a dualized
    matrix is not written. *)
Theorem operator_shl_injective (M M' : BoundaryMatrix R) (o : string) :
  operator_shl o M = operator_shl o M' →
  getNumColumns M = getNumColumns M' ∧
  ∀ j, j < getNumColumns M → getColumn M j = getColumn M' j.
Proof.
  unfold operator_shl. rewrite !print_columns_concat.
  intros Heq%string_app_inv_head%output_lines_inj.
  assert (getNumColumns M = getNumColumns M') as Hn.
  { apply (f_equal length) in Heq. by rewrite !length_fmap, !length_seq in Heq. }
  split; [done|]. intros j Hj.
  apply (f_equal (λ l, l !! j)) in Heq.
  rewrite !list_lookup_fmap, !lookup_seq_lt in Heq by lia.
  by injection Heq.
Qed.

(** The stream extraction of unsigned numbers reads the written indices
    back: applied to the text of a matrix it yields, in order, the indices
    of the columns that come before the first empty column, whose [-] ends
    the extraction; for a matrix without an empty column these are all its
    indices. *)
Theorem read_values_operator_shl (M : BoundaryMatrix R) (k : nat) :
  k ≤ getNumColumns M →
  (∀ j, j < k → getColumn M j ≠ []) →
  k = getNumColumns M ∨ getColumn M k = [] →
  read_values (operator_shl "" M) None = mjoin (getColumn M <$> seq 0 k).
Proof.
  intros Hk Hfull Hend. unfold operator_shl.
  rewrite print_columns_concat, string_app_nil_l.
  replace (getNumColumns M) with (k + (getNumColumns M - k)) by lia.
  rewrite seq_app, !fmap_app. simpl.
  assert (∀ js rest, (∀ j, j ∈ js → getColumn M j ≠ []) →
            read_values (String.concat "" (output_line <$> (getColumn M <$> js)) ++ rest) None
            = mjoin (getColumn M <$> js) ++ read_values rest None) as Hprefix.
  { induction js as [|j js IH]; intros rest Hjs; [done|].
    rewrite !fmap_cons, string_concat_cons, string_app_assoc, read_values_output_line.
    destruct (getColumn M j) as [|c column] eqn:Hj.
    { exfalso. by apply (Hjs j); [left|]. }
    rewrite IH by (intros j' Hj'; apply Hjs; by right).
    simpl. by rewrite <-app_assoc. }
  assert (∀ a b : list string,
            String.concat "" (a ++ b) = (String.concat "" a ++ String.concat "" b)%string)
    as Hconcat.
  { induction a as [|s a IH]; intros b; [done|].
    rewrite <-app_comm_cons, !string_concat_cons, IH. by rewrite string_app_assoc. }
  rewrite Hconcat, Hprefix by (intros j Hj%elem_of_seq; apply Hfull; lia).
  destruct Hend as [->|Hempty].
  - rewrite Nat.sub_diag. simpl. by rewrite app_nil_r.
  - destruct (getNumColumns M - k) as [|n] eqn:Hn.
    { simpl. by rewrite app_nil_r. }
    rewrite <-cons_seq, !fmap_cons, string_concat_cons.
    rewrite read_values_output_line, Hempty. by rewrite app_nil_r.
Qed.

End OutputRoundTrip.

Lemma operator_shl_injective_witness :
  operator_shl "" (setDualized true two_columns) = operator_shl "" two_columns ∧
  getNumColumns (setDualized true two_columns) = getNumColumns two_columns.
Proof.
  assert (operator_shl "" (setDualized true two_columns) = operator_shl "" two_columns)
    as Heq by reflexivity.
  split; [exact Heq|].
  exact (proj1 (operator_shl_injective (setDualized true two_columns) two_columns "" Heq)).
Defined.

Lemma read_values_operator_shl_witness :
  3 ≤ getNumColumns dense_columns ∧
  read_values (operator_shl "" dense_columns) None = [0; 1; 1; 0; 2].
Proof.
  assert (3 ≤ getNumColumns dense_columns) as Hk by (vm_compute; lia).
  split; [exact Hk|].
  apply (read_values_operator_shl dense_columns 3 Hk).
  - intros j Hj. destruct j as [|[|[|j]]]; [discriminate..|lia].
  - left. reflexivity.
Defined.

(** ** Text output of a persistence diagram *)

Section DiagramOutputFacts.
Context {T : Type} `{DataType T}.
Variable show : T → string.

Lemma print_point_app o p : print_point show o p = (o ++ print_point show "" p)%string.
Proof. unfold print_point. by rewrite string_app_nil_l, !string_app_assoc. Qed.

Lemma print_points_app o (points : list (Point T)) :
  foldl (print_point show) o points = (o ++ foldl (print_point show) "" points)%string.
Proof.
  revert o. induction points as [|p points IH]; intros o.
  { simpl. by rewrite string_app_nil_r. }
  simpl. rewrite IH, (IH (print_point show "" p)), print_point_app.
  by rewrite string_app_assoc.
Qed.

(** Writing a diagram appends to the stream one line per point, and the
    appended text does not depend on what the stream holds; the dimension
    is not written.  Writing a merged diagram is writing the first diagram
    and then the second.  When the data type writes no newline, the text
    has exactly as many lines as the diagram has points. *)
Theorem operator_shl_diagram_spec (D E : PersistenceDiagram T) (o : string) (d : nat) :
  operator_shl_diagram show o D = (o ++ operator_shl_diagram show "" D)%string ∧
  operator_shl_diagram show o (setDimension d D) = operator_shl_diagram show o D ∧
  operator_shl_diagram show o (merge D E) =
    operator_shl_diagram show (operator_shl_diagram show o D) E ∧
  ((∀ v, single_line (show v) = true) →
   count_lines (operator_shl_diagram show "" D) false = size D).
Proof.
  unfold operator_shl_diagram, size. split_and!.
  - apply print_points_app.
  - reflexivity.
  - simpl. by rewrite foldl_app.
  - intros Hshow. induction (_points D) as [|p points IH]; [done|].
    simpl. rewrite print_points_app. unfold print_point at 1.
    rewrite string_app_nil_l, string_app_assoc, count_lines_single_line.
    + by rewrite IH.
    + by rewrite !single_line_app, !Hshow.
Qed.

End DiagramOutputFacts.

Lemma operator_shl_diagram_spec_witness :
  count_lines
    (operator_shl_diagram (λ v, show_index (Z.to_nat v)) "" diagram0) false = size diagram0.
Proof.
  apply (operator_shl_diagram_spec (λ v, show_index (Z.to_nat v)) diagram0 diagram0 "" 0).
  intros v. apply single_line_show_index.
Defined.
